(** * EpigrafIA front end: audio feature extraction, WAV writer, model loader

    A shallow embedding of
    - [src/utils/audioProcessing.js] ([CONFIG], [audioBufferToFloat32],
      [extractMFCC]),
    - the recorder module [unnamed/part_002] ([float32ToWav]),
    - the model loader [unnamed/part_001] ([loadModels], [getModels],
      [unloadModels]),
    and the properties of them that the specification states.

    JavaScript numbers are kept abstract: the extraction code is written
    once over a class [Number] of the arithmetic it uses (with [fround] for a
    store into a [Float32Array]), so every structural theorem holds for any
    reading of the arithmetic.  The reading that the program runs with is
    [Number_JS]: IEEE-754 binary64 operations, and a rounding to binary32 at
    every store, both as the Standard Library specifies them ([SpecFloat]).
    [Number_Q] and [Number_R] are exact readings with no rounding; they
    serve where every value of the computation is exactly representable. *)

From Stdlib Require Import ZArith QArith Qabs Qminmax Reals Lra Lia List String Ascii.
From Stdlib Require Import SpecFloat.
From stdpp Require Import base list.

Local Open Scope Z_scope.

(** ** Numbers *)

Class Number (F : Type) := {
  num_zero : F;
  num_add : F -> F -> F;
  num_sub : F -> F -> F;
  num_mul : F -> F -> F;
  num_div : F -> F -> F;
  num_abs : F -> F;
  num_of_Z : Z -> F;
  (** [Math.fround]: the rounding of a store into a [Float32Array]. *)
  fround : F -> F;
  (** Zero is a float32: storing it changes nothing. *)
  fround_zero : fround num_zero = num_zero
}.

(** [Math.sqrt] *)
Class Sqrt (F : Type) := num_sqrt : F -> F.

(** Exact rationals, kept in lowest terms so that results compare with [=].
    No rounding takes place: a value shown in this reading is the value
    before the store rounds it to float32.  (A division by zero gives 0
    here, where JavaScript gives [NaN] or an infinity; [extractMFCC] divides
    by [binSize = 51].) *)
#[export] Instance Number_Q : Number Q := {
  num_zero := 0%Q;
  num_add a b := Qred (a + b)%Q;
  num_sub a b := Qred (a - b)%Q;
  num_mul a b := Qred (a * b)%Q;
  num_div a b := Qred (a / b)%Q;
  num_abs a := Qred (Qabs a);
  num_of_Z z := inject_Z z;
  fround a := a;
  fround_zero := eq_refl
}.

(** Exact reals, with no rounding, overflow, [NaN] or infinity. *)
#[export] Instance Number_R : Number R := {
  num_zero := 0%R;
  num_add := Rplus;
  num_sub := Rminus;
  num_mul := Rmult;
  num_div := Rdiv;
  num_abs := Rabs;
  num_of_Z := IZR;
  fround a := a;
  fround_zero := eq_refl
}.

#[export] Instance Sqrt_R : Sqrt R := sqrt.

(** *** JavaScript numbers

    A number is an IEEE-754 binary64 value: [spec_float] with precision 53
    and maximal exponent 1024.  An operation rounds its exact result to
    nearest, ties to even.  [Math.fround], and with it every store into a
    [Float32Array], rounds to binary32 (precision 24, maximal exponent
    128): a store of a value that is too large gives an infinity. *)
Definition float64_prec : Z := 53.
Definition float64_emax : Z := 1024.
Definition float32_prec : Z := 24.
Definition float32_emax : Z := 128.

Definition to_float32 (v : spec_float) : spec_float :=
  SFldexp float32_prec float32_emax v 0.

#[export] Instance Number_JS : Number spec_float := {
  num_zero := S754_zero false;
  num_add := SFadd float64_prec float64_emax;
  num_sub := SFsub float64_prec float64_emax;
  num_mul := SFmul float64_prec float64_emax;
  num_div := SFdiv float64_prec float64_emax;
  num_abs := SFabs;
  num_of_Z z := binary_normalize float64_prec float64_emax z 0 false;
  fround := to_float32;
  fround_zero := eq_refl
}.

#[export] Instance Sqrt_JS : Sqrt spec_float := SFsqrt float64_prec float64_emax.

(** ** [CONFIG] (audioProcessing.js, lines 9-17) *)

Record Config := {
  sampleRate : Z;
  duration : Z;
  nMfcc : Z;
  nMels : Z;
  fftSize : Z;
  hopLength : Z;
  nFeatures : Z
}.

Definition CONFIG : Config := {|
  sampleRate := 16000;
  duration := 3;
  nMfcc := 40;
  nMels := 128;
  fftSize := 2048;
  hopLength := 512;
  nFeatures := 120
|}.

(** ** Arrays *)

(** [a.length] *)
Definition len {A} (a : list A) : Z := Z.of_nat (length a).

(** [a.slice(b, e)]: a negative index counts from the end, and both ends are
    clamped to the array. *)
Definition slice_index (n i : Z) : Z :=
  if i <? 0 then Z.max (n + i) 0 else Z.min i n.

Definition slice {A} (b e : Z) (a : list A) : list A :=
  let from := slice_index (len a) b in
  let to := slice_index (len a) e in
  take (Z.to_nat (to - from)) (drop (Z.to_nat from) a).

(** [new Float32Array(n)] and [new Array(n).fill(0)] *)
Definition zeros {F} `{Number F} (n : Z) : list F :=
  replicate (Z.to_nat n) num_zero.

(** [target.set(source)]: the elements of [source] overwrite the start of
    [target].  (The source raises a RangeError when [source] is longer than
    [target]; its one call is guarded by [source.length < target.length].) *)
Definition typed_set {A} (target source : list A) : list A :=
  take (length target) (source ++ drop (length source) target).

(** ** [audioBufferToFloat32] (audioProcessing.js, lines 135-155)

    The argument is [audioBuffer.getChannelData(0)]. *)
Definition audioBufferToFloat32 {F} `{Number F} (channelData : list F) : list F :=
  let targetLength := sampleRate CONFIG * duration CONFIG in
  if len channelData >? targetLength then
    slice 0 targetLength channelData
  else if len channelData <? targetLength then
    typed_set (zeros targetLength) channelData
  else
    channelData.

(** ** [extractMFCC] (audioProcessing.js, lines 165-225) *)

(** [for (let i = from; i < to; i++) body] over a loop state [S]. *)
Definition for_range {S} (from to : Z) (body : S -> Z -> S) (init : S) : S :=
  foldl body init (seqZ from (to - from)).

Section Extract.
Context {F : Type} `{Number F}.

(** [a[i]] as a number.  (Out of range JavaScript reads [undefined]; every
    read of the loops below is in range.) *)
Definition get (a : list F) (i : Z) : F :=
  if 0 <=? i then nth (Z.to_nat i) a num_zero else num_zero.

(** [a[i] = v] on a [Float32Array]: the value is rounded to float32, and a
    store outside the array is dropped. *)
Definition put (a : list F) (i : Z) (v : F) : list F :=
  if 0 <=? i then <[Z.to_nat i := fround v]> a else a.

(** Lines 187-200: the body of the loop over bands [j], acting on
    [frameFeatures]. *)
Definition band_step (frame : list F) (frameFeatures : list F) (j : Z) : list F :=
  let binSize := len frame / nMfcc CONFIG in
  let start := j * binSize in
  let end_ := Z.min (start + binSize) (len frame) in
  let sum :=
    for_range start end_ (fun sum k => num_add sum (num_abs (get frame k))) num_zero in
  let ff := put frameFeatures j (num_div sum (num_of_Z binSize)) in
  let ff := put ff (j + nMfcc CONFIG)
              (if 0 <? j then num_sub (get ff j) (get ff (j - 1)) else num_zero) in
  put ff (j + 2 * nMfcc CONFIG)
    (if 0 <? j
     then num_sub (get ff (j + nMfcc CONFIG)) (get ff (j - 1 + nMfcc CONFIG))
     else num_zero).

(** Lines 184-202: the feature vector of one frame. *)
Definition frameFeatures (frame : list F) : list F :=
  for_range 0 (nMfcc CONFIG) (band_step frame) (zeros (nFeatures CONFIG)).

(** Line 174 *)
Definition numFrames (audioData : list F) : Z :=
  (len audioData - fftSize CONFIG) / hopLength CONFIG + 1.

(** Lines 178-180: frame [i] of the signal. *)
Definition frame_at (audioData : list F) (i : Z) : list F :=
  let frameStart := i * hopLength CONFIG in
  let frameEnd := Z.min (frameStart + fftSize CONFIG) (len audioData) in
  slice frameStart frameEnd audioData.

(** Lines 175-203: one feature vector is pushed per frame. *)
Definition natural_features (audioData : list F) : list (list F) :=
  for_range 0 (numFrames audioData)
    (fun features i => features ++ [frameFeatures (frame_at audioData i)]) [].

(** Line 206 *)
Definition targetFrames : Z := 94.

(** Lines 207-209: [while (features.length < targetFrames) features.push(zeros)],
    run with [fuel] iterations at most. *)
Fixpoint pad_loop (fuel : nat) (features : list (list F)) : list (list F) :=
  match fuel with
  | O => features
  | S fuel' =>
      if len features <? targetFrames
      then pad_loop fuel' (features ++ [zeros (nFeatures CONFIG)])
      else features
  end.

(** Lines 205-212: the sequence is padded, then cut, to [targetFrames]
    entries.  [targetFrames] iterations are enough for the loop to end. *)
Definition fit (features : list (list F)) : list (list F) :=
  let features := pad_loop (Z.to_nat targetFrames) features in
  if len features >? targetFrames
  then take (Z.to_nat targetFrames) features
  else features.

(** Lines 170-212: the feature sequence handed to [tf.tensor3d]. *)
Definition features (channelData : list F) : list (list F) :=
  fit (natural_features (audioBufferToFloat32 channelData)).
End Extract.

(** ** Standardisation (audioProcessing.js, lines 214-220)

    [tf.tensor3d([features])] has shape [[1, T, C]] with [T] the number of
    rows and [C] the length of the first row; the leading axis of size one is
    left out here.  The tensor is of type float32, as the entries of
    [features] are already.

    [mean], [moments], [sqrt], [sub], [add] and [div] are operations of
    TensorFlow.js, not code of this repository.  They are modelled as the
    kernels of the library's JavaScript backend compute them:
    - an elementwise kernel ([div], [sub], [square], [sqrt], [add])
      computes each entry in a JavaScript number and stores it into a
      [Float32Array];
    - the [sum] kernel adds the entries of a column up in a JavaScript
      number, in order, and stores the total;
    - [mean] is [sum(div(x, T))], with [T] the number of rows as a float32
      scalar: every entry is divided, and the stored quotients are summed;
    - [moments] takes [mean(square(sub(x, mean)))] for the variance. *)

Section Normalize.
Context {F : Type} `{Number F} `{Sqrt F}.

(** The running total of the [sum] kernel, before it is stored. *)
Definition sum (l : list F) : F := foldl num_add num_zero l.

(** The values of feature [c] along the time axis. *)
Definition column (x : list (list F)) (c : Z) : list F :=
  (fun row => get row c) <$> x.

Definition columns (x : list (list F)) : list Z :=
  seqZ 0 (len (hd [] x)).

(** The mean of one column of [T] entries. *)
Definition mean_column (T : F) (col : list F) : F :=
  fround (sum ((fun v => fround (num_div v T)) <$> col)).

(** [x.mean([1], true)] *)
Definition mean_axis1 (x : list (list F)) : list F :=
  (fun c => mean_column (fround (num_of_Z (len x))) (column x c)) <$> columns x.

(** [square(sub(x, mean))], with [mean] broadcast along the time axis. *)
Definition devSquared (x : list (list F)) (mean : list F) : list (list F) :=
  (fun row => imap (fun c v =>
     let d := fround (num_sub v (get mean (Z.of_nat c))) in
     fround (num_mul d d)) row) <$> x.

(** [tf.moments(x, [1], true).variance] *)
Definition variance_axis1 (x : list (list F)) : list F :=
  mean_axis1 (devSquared x (mean_axis1 x)).

(** [tf.moments(tensor, [1], true).variance.sqrt()] *)
Definition std_axis1 (x : list (list F)) : list F :=
  (fun v => fround (num_sqrt v)) <$> variance_axis1 x.

(** The number [1e-8]. *)
Definition epsilon : F := num_div (num_of_Z 1) (num_of_Z 100000000).

(** Lines 218-220: [tensor.sub(mean).div(std.add(eps))], with the float32
    scalar [eps] that is added to the deviation as a parameter. *)
Definition normalize_with (eps : F) (x : list (list F)) : list (list F) :=
  let mean := mean_axis1 x in
  let std := std_axis1 x in
  (fun row => imap (fun c v =>
     fround (num_div (fround (num_sub v (get mean (Z.of_nat c))))
                     (fround (num_add (get std (Z.of_nat c)) eps)))) row) <$> x.

(** [std.add(1e-8)]: the number [1e-8] becomes a float32 scalar. *)
Definition normalize : list (list F) -> list (list F) := normalize_with (fround epsilon).

Definition extractMFCC (channelData : list F) : list (list F) :=
  normalize (features channelData).

(** A tensor has rows of one length. *)
Definition rectangular (x : list (list F)) : Prop :=
  Forall (fun row => len row = len (hd [] x)) x.

(** The same computation seen along one column [col] of [T] rows: the
    operations above treat the columns independently of each other. *)
Definition deviation (mean v : F) : F := fround (num_sub v mean).

Definition square (d : F) : F := fround (num_mul d d).

Definition variance_column (T : F) (col : list F) : F :=
  let mean := mean_column T col in
  mean_column T ((fun v => square (deviation mean v)) <$> col).

Definition std_column (T : F) (col : list F) : F :=
  fround (num_sqrt (variance_column T col)).

Definition divisor (eps T : F) (col : list F) : F :=
  fround (num_add (std_column T col) eps).

Definition normalize_column (eps T : F) (col : list F) : list F :=
  let mean := mean_column T col in
  let den := divisor eps T col in
  (fun v => fround (num_div (deviation mean v) den)) <$> col.

(** A feature sequence with every entry multiplied by [a], as a float32
    tensor. *)
Definition scale (a : F) (x : list (list F)) : list (list F) :=
  (fun row : list F => (fun v => fround (num_mul a v)) <$> row) <$> x.
End Normalize.

(** Equality of floating-point values as data is decidable. *)
#[local] Instance spec_float_eq_dec : EqDecision spec_float.
Proof. solve_decision. Defined.

(** *** Scaling by a power of two

    Multiplying a binary floating-point number by [2^k] moves its exponent
    and leaves its digits alone, unless the result underflows or overflows. *)
Definition scl (k : Z) (v : spec_float) : spec_float :=
  match v with
  | S754_finite s m e => S754_finite s m (e + k)
  | _ => v
  end.

(** The number [2^k], as a binary64 value. *)
Definition pow2 (k : Z) : spec_float := S754_finite false 4503599627370496 (k - 52).

(** Whether a rounding sees no underflow and no overflow, for a value and
    for the value times [2^k].  The conditions are stated on the steps of the
    rounding of [SpecFloat], in a format of precision [prec] and maximal
    exponent [emax]. *)
Section Range.
Variables prec emax : Z.

(** A value with [d] binary digits before the point, and the same times
    [2^k], are in the range of the normal numbers. *)
Definition in_range (d k : Z) : bool :=
  (emin prec emax <=? d - prec) && (emin prec emax <=? d + k - prec).

(** [binary_round_aux]: the rounding of [m * 2^e] with the location [l]. *)
Definition round_aux_ok (m e : Z) (l : location) (k : Z) : bool :=
  in_range (Zdigits2 m + e) k &&
  (let '(mrs, e1) := shr_fexp prec emax m e l in
   let m1 := round_nearest_even (shr_m mrs) (loc_of_shr_record mrs) in
   in_range (Zdigits2 m1 + e1) k &&
   (let '(_, e2) := shr_fexp prec emax m1 e1 loc_Exact in
    (e2 <=? emax - prec) && (e2 + k <=? emax - prec))).

(** [binary_round]: the rounding of [m * 2^e]. *)
Definition round_ok (m : positive) (e k : Z) : bool :=
  in_range (Zpos (digits2_pos m) + e) k &&
  (let '(mz, ez) := shl_align m e (fexp prec emax (Zpos (digits2_pos m) + e)) in
   round_aux_ok (Zpos mz) ez loc_Exact k).

Definition normalize_ok (m e k : Z) : bool :=
  match m with
  | Z0 => true
  | Zpos p | Zneg p => round_ok p e k
  end.

(** [x + y] and [x - y], both operands scaled. *)
Definition add_ok (x y : spec_float) (k : Z) : bool :=
  match x, y with
  | S754_finite sx mx ex, S754_finite sy my ey =>
      let ez := Z.min ex ey in
      normalize_ok (cond_Zopp sx (Zpos (fst (shl_align mx ex ez)))
                    + cond_Zopp sy (Zpos (fst (shl_align my ey ez)))) ez k
  | _, _ => true
  end.

Definition sub_ok (x y : spec_float) (k : Z) : bool :=
  match x, y with
  | S754_finite sx mx ex, S754_finite sy my ey =>
      let ez := Z.min ex ey in
      normalize_ok (cond_Zopp sx (Zpos (fst (shl_align mx ex ez)))
                    - cond_Zopp sy (Zpos (fst (shl_align my ey ez)))) ez k
  | _, _ => true
  end.

(** [x * y], the product scaled by [2^k] in all. *)
Definition mul_ok (x y : spec_float) (k : Z) : bool :=
  match x, y with
  | S754_finite sx mx ex, S754_finite sy my ey =>
      round_aux_ok (Zpos (mx * my)) (ex + ey) loc_Exact k
  | _, _ => true
  end.

(** [x / y], the dividend scaled. *)
Definition div_ok (x y : spec_float) (k : Z) : bool :=
  match x, y with
  | S754_finite sx mx ex, S754_finite sy my ey =>
      in_range (Zdigits2 (Zpos mx) + ex - (Zdigits2 (Zpos my) + ey)) k &&
      (let '(mz, ez, lz) := SFdiv_core_binary prec emax (Zpos mx) ex (Zpos my) ey in
       round_aux_ok mz ez lz k)
  | _, _ => true
  end.

(** [sqrt x], the argument scaled by [2^(2k)]. *)
Definition sqrt_ok (x : spec_float) (k : Z) : bool :=
  match x with
  | S754_finite false mx ex =>
      in_range (Z.div2 (Zdigits2 (Zpos mx) + ex + 1)) k &&
      (let '(mz, ez, lz) := SFsqrt_core_binary prec emax (Zpos mx) ex in
       round_aux_ok mz ez lz k)
  | _ => true
  end.

(** The rounding of a value to the format. *)
Definition ldexp_ok (x : spec_float) (k : Z) : bool :=
  match x with
  | S754_finite _ m e => round_ok m (e + 0) k
  | _ => true
  end.
End Range.

(** The same for the operations of the program: a JavaScript operation
    is a binary64 operation, and a store rounds to binary32. *)
Definition store_ok (v : spec_float) (k : Z) : bool :=
  ldexp_ok float32_prec float32_emax v k.

(** [fround (x / y)], [fround (x - y)], [fround (x * x)], [fround (sqrt x)]
    and [fround (x + y)], with their operands scaled. *)
Definition quotient_ok (T : spec_float) (k : Z) (v : spec_float) : bool :=
  div_ok float64_prec float64_emax v T k && store_ok (num_div v T) k.

Definition deviation_ok (mean : spec_float) (k : Z) (v : spec_float) : bool :=
  sub_ok float64_prec float64_emax v mean k && store_ok (num_sub v mean) k.

Definition square_ok (k : Z) (d : spec_float) : bool :=
  mul_ok float64_prec float64_emax d d (k + k) && store_ok (num_mul d d) (k + k).

Definition root_ok (k : Z) (v : spec_float) : bool :=
  sqrt_ok float64_prec float64_emax v k && store_ok (num_sqrt v) k.

Definition total_ok (k : Z) (x y : spec_float) : bool :=
  add_ok float64_prec float64_emax x y k && store_ok (num_add x y) k.

(** The running total of the [sum] kernel. *)
Fixpoint sum_ok (k : Z) (acc : spec_float) (l : list spec_float) : bool :=
  match l with
  | [] => true
  | v :: l => add_ok float64_prec float64_emax acc v k && sum_ok k (num_add acc v) l
  end.

Definition mean_ok (T : spec_float) (k : Z) (col : list spec_float) : bool :=
  forallb (quotient_ok T k) col &&
  (let quotients := (fun v => fround (num_div v T)) <$> col in
   sum_ok k num_zero quotients && store_ok (sum quotients) k).

(** The standardisation of one column, with the constant [eps] in the
    divisor: what it computes for [col] and what it computes for [col] times
    [2^k], with [eps] times [2^k] in the divisor, see no underflow and no
    overflow. *)
Definition column_ok (eps T : spec_float) (k : Z) (col : list spec_float) : bool :=
  let mean := mean_column T col in
  let squares := (fun v => square (deviation mean v)) <$> col in
  mean_ok T k col &&
  forallb (fun v => deviation_ok mean k v && square_ok k (deviation mean v)) col &&
  mean_ok T (k + k) squares &&
  root_ok k (variance_column T col) &&
  total_ok k (std_column T col) eps.

(** A float32 value that is zero or a normal number, and stays one when it
    is multiplied by [2^k]. *)
Definition scalable (k : Z) (v : spec_float) : bool :=
  match v with
  | S754_finite _ m e =>
      (Z.pos (digits2_pos m) =? float32_prec) &&
      (-149 <=? e) && (e <=? 104) && (-149 <=? e + k) && (e + k <=? 104)
  | _ => true
  end.

(** The same for a tensor [x] and the number [a = 2^k]: the entries and
    their products with [a] are normal numbers or zero, the quotient
    [1e-8 / a] is exact (multiplied by [a] it is the float32 [1e-8] again),
    and the standardisation of no column underflows or overflows. *)
Definition scales_exactly (k : Z) (x : list (list spec_float)) : bool :=
  let eps := fround (num_div (fround epsilon) (pow2 k)) in
  forallb (forallb (scalable k)) x &&
  bool_decide (scl k eps = fround epsilon) &&
  forallb (fun c => column_ok eps (fround (num_of_Z (len x))) k (column x c)) (columns x).

(** ** [float32ToWav] (the recorder module, [unnamed/part_002], lines 122-156)

    The buffer is a list of bytes, each a [Z] in [[0, 256)].  A finite
    float32 sample is a rational, and its products with [0x8000] and
    [0x7FFF] are exact in double precision, so samples are taken in [Q].
    The [DataView] setters raise a RangeError outside the buffer; every
    store below is inside. *)

Definition setUint8 (view : list Z) (offset : Z) (v : Z) : list Z :=
  if 0 <=? offset then <[Z.to_nat offset := v mod 256]> view else view.

(** [view.setUint16(offset, v, true)] *)
Definition setUint16 (view : list Z) (offset : Z) (v : Z) : list Z :=
  let w := v mod 2 ^ 16 in
  setUint8 (setUint8 view offset w) (offset + 1) (Z.shiftr w 8).

(** [view.setUint32(offset, v, true)] *)
Definition setUint32 (view : list Z) (offset : Z) (v : Z) : list Z :=
  let w := v mod 2 ^ 32 in
  setUint8 (setUint8 (setUint8 (setUint8 view offset w)
    (offset + 1) (Z.shiftr w 8)) (offset + 2) (Z.shiftr w 16)) (offset + 3) (Z.shiftr w 24).

(** The integer part of a number, rounding toward zero. *)
Definition truncate (q : Q) : Z := Z.quot (Qnum q) (Z.pos (Qden q)).

(** [view.setInt16(offset, q, true)]: the number is truncated and reduced
    modulo [2^16]; the two's complement pattern is stored low byte first. *)
Definition setInt16 (view : list Z) (offset : Z) (q : Q) : list Z :=
  setUint16 view offset (truncate q).

Definition charCodes (s : string) : list Z :=
  (fun c => Z.of_nat (nat_of_ascii c)) <$> list_ascii_of_string s.

(** Lines 127-131 *)
Definition writeString (view : list Z) (offset : Z) (s : string) : list Z :=
  for_range 0 (len (charCodes s))
    (fun view i => setUint8 view (offset + i) (nth (Z.to_nat i) (charCodes s) 0)) view.

Definition Qlt_bool (a b : Q) : bool := negb (Qle_bool b a).

(** Lines 150-151: the 16-bit value of one sample. *)
Definition quantize (sample : Q) : Q :=
  let s := Qmax (-1) (Qmin 1 sample) in
  if Qlt_bool s 0 then (s * 32768)%Q else (s * 32767)%Q.

Definition float32ToWav (samples : list Q) (sampleRate : Z) : list Z :=
  let buffer := replicate (Z.to_nat (44 + len samples * 2)) 0 in
  let view := buffer in
  let view := writeString view 0 "RIFF" in
  let view := setUint32 view 4 (36 + len samples * 2) in
  let view := writeString view 8 "WAVE" in
  let view := writeString view 12 "fmt " in
  let view := setUint32 view 16 16 in
  let view := setUint16 view 20 1 in
  let view := setUint16 view 22 1 in
  let view := setUint32 view 24 sampleRate in
  let view := setUint32 view 28 (sampleRate * 2) in
  let view := setUint16 view 32 2 in
  let view := setUint16 view 34 16 in
  let view := writeString view 36 "data" in
  let view := setUint32 view 40 (len samples * 2) in
  fst (for_range 0 (len samples)
         (fun '(view, offset) i =>
            (setInt16 view offset (quantize (nth (Z.to_nat i) samples 0%Q)), offset + 2))
         (view, 44)).

(** ** The model loader ([unnamed/part_001], lines 8-166)

    The module's variables are a record, threaded through the functions.
    What TensorFlow.js and [fetch] answer is given by a [World]. *)

Module Loader.

(** A loaded [tf.LayersModel], named by the path it came from. *)
Record LayersModel := { model_path : string }.

Record SpoofingConfig := { threshold : Q; labels : list string }.

Record State := {
  languageModel : option LayersModel;
  accentModel : option LayersModel;
  spoofingModel : option LayersModel;
  modelsLoaded : bool;
  languageLabels : option (list string);
  spoofingConfig : option SpoofingConfig
}.

(** Lines 8-13 *)
Definition initial : State := {|
  languageModel := None;
  accentModel := None;
  spoofingModel := None;
  modelsLoaded := false;
  languageLabels := None;
  spoofingConfig := None
|}.

(** Lines 15-21 *)
Record ModelPaths := {
  path_language : string;
  path_accent : string;
  path_spoofing : string;
  path_languageLabels : string;
  path_spoofingConfig : string
}.

Definition MODEL_PATHS : ModelPaths := {|
  path_language := "/models/language/model.json";
  path_accent := "/models/accent/model.json";
  path_spoofing := "/models/spoofing/model.json";
  path_languageLabels := "/models/language/labels.json";
  path_spoofingConfig := "/models/spoofing/config.json"
|}.

(** The outcome of [fetch(path)] followed by [response.json()]: the
    request or the parsing raises, the response is not [ok], or the
    document is read. *)
Inductive Fetched (A : Type) :=
| FetchThrows
| FetchNotOk
| FetchOk (json : A).
Arguments FetchThrows {A}.
Arguments FetchNotOk {A}.
Arguments FetchOk {A} json.

(** A value, or a raised [Error] with its message. *)
Inductive Outcome (A : Type) :=
| Returns (value : A)
| Throws (message : string).
Arguments Returns {A} value.
Arguments Throws {A} message.

Record World := {
  tf_ready : Outcome unit;
  fetch_labels : Fetched (list string);
  fetch_spoofingConfig : Fetched SpoofingConfig;
  loadLayersModel : string -> Outcome LayersModel
}.

Definition set_languageModel v (s : State) : State :=
  {| languageModel := v; accentModel := accentModel s;
     spoofingModel := spoofingModel s; modelsLoaded := modelsLoaded s;
     languageLabels := languageLabels s; spoofingConfig := spoofingConfig s |}.
Definition set_accentModel v (s : State) : State :=
  {| languageModel := languageModel s; accentModel := v;
     spoofingModel := spoofingModel s; modelsLoaded := modelsLoaded s;
     languageLabels := languageLabels s; spoofingConfig := spoofingConfig s |}.
Definition set_spoofingModel v (s : State) : State :=
  {| languageModel := languageModel s; accentModel := accentModel s;
     spoofingModel := v; modelsLoaded := modelsLoaded s;
     languageLabels := languageLabels s; spoofingConfig := spoofingConfig s |}.
Definition set_modelsLoaded v (s : State) : State :=
  {| languageModel := languageModel s; accentModel := accentModel s;
     spoofingModel := spoofingModel s; modelsLoaded := v;
     languageLabels := languageLabels s; spoofingConfig := spoofingConfig s |}.
Definition set_languageLabels v (s : State) : State :=
  {| languageModel := languageModel s; accentModel := accentModel s;
     spoofingModel := spoofingModel s; modelsLoaded := modelsLoaded s;
     languageLabels := v; spoofingConfig := spoofingConfig s |}.
Definition set_spoofingConfig v (s : State) : State :=
  {| languageModel := languageModel s; accentModel := accentModel s;
     spoofingModel := spoofingModel s; modelsLoaded := modelsLoaded s;
     languageLabels := languageLabels s; spoofingConfig := v |}.

(** Lines 26-37 *)
Definition loadLabels (w : World) (s : State) : State :=
  match fetch_labels w with
  | FetchOk json => set_languageLabels (Some json) s
  | FetchNotOk => s
  | FetchThrows =>
      set_languageLabels (Some ["Español"; "Inglés"; "Francés"; "Alemán"]%string) s
  end.

(** Lines 42-56 *)
Definition loadSpoofingConfig (w : World) (s : State) : State :=
  match fetch_spoofingConfig w with
  | FetchOk json => set_spoofingConfig (Some json) s
  | FetchNotOk => s
  | FetchThrows =>
      set_spoofingConfig
        (Some {| threshold := 1 # 2; labels := ["human"; "spoof"]%string |}) s
  end.

(** What [loadModels] and [getModels] hand back: the module's variables
    at that point (a field the returned object does not have is [None]). *)
Record Models := {
  r_languageModel : option LayersModel;
  r_accentModel : option LayersModel;
  r_spoofingModel : option LayersModel;
  r_languageLabels : option (list string);
  r_spoofingConfig : option SpoofingConfig
}.

(** [message.includes(needle)] *)
Definition includes (needle message : string) : bool :=
  match index 0 needle message with Some _ => true | None => false end.

(** Lines 124-135: the outer [catch]. *)
Definition rethrow (message : string) : string :=
  if includes "404" message then
    ("No se encontraron los modelos. Asegúrate de haber entrenado y convertido los modelos a TensorFlow.js. "
     ++ "Los archivos deben estar en /public/models/language/")%string
  else ("Error cargando modelos: " ++ message)%string.

(** Lines 62-136 *)
Definition loadModels (w : World) (s : State) : Outcome Models * State :=
  if modelsLoaded s then
    (Returns {| r_languageModel := languageModel s; r_accentModel := accentModel s;
                r_spoofingModel := None; r_languageLabels := languageLabels s;
                r_spoofingConfig := None |}, s)
  else
    match tf_ready w with
    | Throws message => (Throws (rethrow message), s)
    | Returns _ =>
        let s := loadLabels w s in
        let s := loadSpoofingConfig w s in
        match loadLayersModel w (path_language MODEL_PATHS) with
        | Throws message =>
            (Throws (rethrow ("Error cargando modelo de idioma: " ++ message)%string), s)
        | Returns model =>
            let s := set_languageModel (Some model) s in
            let s :=
              match loadLayersModel w (path_accent MODEL_PATHS) with
              | Returns model => set_accentModel (Some model) s
              | Throws _ => set_accentModel None s
              end in
            let s :=
              match loadLayersModel w (path_spoofing MODEL_PATHS) with
              | Returns model => set_spoofingModel (Some model) s
              | Throws _ => set_spoofingModel None s
              end in
            let s := set_modelsLoaded true s in
            (Returns {| r_languageModel := languageModel s; r_accentModel := accentModel s;
                        r_spoofingModel := spoofingModel s;
                        r_languageLabels := languageLabels s;
                        r_spoofingConfig := spoofingConfig s |}, s)
        end
    end.

(** Lines 142-144 *)
Definition getModels (s : State) : Models * bool :=
  ({| r_languageModel := languageModel s; r_accentModel := accentModel s;
      r_spoofingModel := spoofingModel s; r_languageLabels := languageLabels s;
      r_spoofingConfig := spoofingConfig s |}, modelsLoaded s).

(** Lines 149-166 ([dispose] frees memory held by TensorFlow.js, outside
    this state). *)
Definition unloadModels (s : State) : State :=
  let s := if languageModel s is Some _ then set_languageModel None s else s in
  let s := if accentModel s is Some _ then set_accentModel None s else s in
  let s := if spoofingModel s is Some _ then set_spoofingModel None s else s in
  let s := set_modelsLoaded false s in
  let s := set_languageLabels None s in
  set_spoofingConfig None s.

End Loader.

(** ** Closed forms of the feature vector

    What the loop of lines 187-200 leaves in [frameFeatures], written as
    plain functions of the frame; the theorems below relate the loop to
    them. *)

Section ClosedForms.
Context {F : Type} `{Number F}.

(** The mean absolute amplitude of a run of samples. *)
Definition mean_abs (samples : list F) : F :=
  num_div (foldl (fun sum v => num_add sum (num_abs v)) num_zero samples)
          (num_of_Z (len samples)).

(** The samples that the loop of lines 193-195 adds up for band [j]. *)
Definition bin (frame : list F) (j : Z) : list F :=
  let binSize := len frame / nMfcc CONFIG in
  slice (j * binSize) (j * binSize + binSize) frame.

Definition energy (frame : list F) (j : Z) : F := fround (mean_abs (bin frame j)).

(** The band-to-band difference of a vector: entry 0 is zero, entry [j]
    is the stored difference of entries [j] and [j - 1]. *)
Definition band_diff (v : list F) : list F :=
  imap (fun j vj =>
          match j with
          | O => num_zero
          | S j' => fround (num_sub vj (nth j' v num_zero))
          end) v.

(** The first and second differences, as functions of the band. *)
Definition delta (frame : list F) (j : Z) : F :=
  if 0 <? j then fround (num_sub (energy frame j) (energy frame (j - 1))) else num_zero.

Definition delta2 (frame : list F) (j : Z) : F :=
  if 0 <? j then fround (num_sub (delta frame j) (delta frame (j - 1))) else num_zero.

(** The invariant of the loop over bands: the three entries of every
    band handled so far are in place. *)
Definition bands_done (frame : list F) (n : Z) (ff : list F) : Prop :=
  len ff = nFeatures CONFIG /\
  forall j, 0 <= j < n ->
    get ff j = energy frame j /\
    get ff (j + nMfcc CONFIG) = delta frame j /\
    get ff (j + 2 * nMfcc CONFIG) = delta2 frame j.

(** The bins as the specification words them: equal width, and a final
    bin that runs to the end of the frame. *)
Definition spec_bin (frame : list F) (j : Z) : list F :=
  let binWidth := len frame / nMfcc CONFIG in
  slice (j * binWidth)
        (if j =? nMfcc CONFIG - 1 then len frame else j * binWidth + binWidth) frame.

Definition spec_energy (frame : list F) (j : Z) : F := fround (mean_abs (spec_bin frame j)).
End ClosedForms.

(** ** The WAV layout

    The container as the format describes it, to compare [float32ToWav]
    with. *)

(** The [k] low bytes of [v], low byte first. *)
Fixpoint le_split (k : nat) (v : Z) : list Z :=
  match k with
  | O => []
  | S k' => v mod 256 :: le_split k' (v / 256)
  end.

(** The unsigned number that bytes stand for, low byte first. *)
Fixpoint le_combine (bytes : list Z) : Z :=
  match bytes with
  | [] => 0
  | b :: bytes' => b + 256 * le_combine bytes'
  end.

(** A 16-bit pattern read as a two's complement number. *)
Definition int16 (u : Z) : Z := if u <? 32768 then u else u - 65536.

(** The 44 bytes of a RIFF/WAVE header for [n] samples of 16-bit mono PCM. *)
Definition wav_header (n sampleRate : Z) : list Z :=
  charCodes "RIFF" ++ le_split 4 (36 + n * 2) ++
  charCodes "WAVE" ++
  charCodes "fmt " ++ le_split 4 16 ++
  le_split 2 1 ++ le_split 2 1 ++
  le_split 4 sampleRate ++ le_split 4 (sampleRate * 2) ++
  le_split 2 2 ++ le_split 2 16 ++
  charCodes "data" ++ le_split 4 (n * 2).

(** The two bytes of one sample. *)
Definition pcm16 (sample : Q) : list Z := le_split 2 (truncate (quantize sample)).

(** ** More of the sources

    The rest of the recorder module, the waveform drawing of
    [audioProcessing.js], and what the properties of the standardisation
    are stated with. *)

(** Equality of rationals as pairs is decidable. *)
#[local] Instance Q_eq_dec : EqDecision Q.
Proof. solve_decision. Defined.

(** The three entries of band [j] of a feature vector, for amplitudes of
    at most [M]: the energy in [[0, M]], the first difference in [[-M, M]],
    the second in [[-2M, 2M]]. *)
Definition band_in_range (M : R) (row : list R) : Prop :=
  forall j, 0 <= j < nMfcc CONFIG ->
    (0 <= get row j <= M)%R /\
    (- M <= get row (j + nMfcc CONFIG) <= M)%R /\
    (- (2 * M) <= get row (j + 2 * nMfcc CONFIG) <= 2 * M)%R.

(** [target.set(source, offset)]: the elements of [source] overwrite
    [target] from index [offset] on.  (The source raises a RangeError when
    they do not fit; in [stopRecording] they do.) *)
Definition typed_set_at {A} (target source : list A) (offset : Z) : list A :=
  take (length target)
    (take (Z.to_nat offset) target ++ source
       ++ drop (Z.to_nat offset + length source) target).

(** *** The recorder ([unnamed/part_002], lines 6-114)

    The module's variables, and beside them the resources that the
    browser holds open for the module: the microphone streams whose tracks
    have not been stopped, and the audio contexts that have not been
    closed. *)

Module Recorder.

Record State := {
  (** The open [AudioContext], with its [sampleRate]. *)
  audioContext : option Z;
  (** [mediaStream] is not [null]. *)
  mediaStream : bool;
  (** [scriptProcessor] is not [null]. *)
  scriptProcessor : bool;
  audioData : list (list Q);
  isRecording : bool;
  (** How many microphone streams have live tracks. *)
  live_streams : nat;
  (** How many audio contexts are open. *)
  open_contexts : nat
}.

(** Lines 6-10 *)
Definition initial : State := {|
  audioContext := None; mediaStream := false; scriptProcessor := false;
  audioData := []; isRecording := false; live_streams := 0; open_contexts := 0
|}.

(** Line 12 *)
Definition SAMPLE_RATE : Z := 16000.

(** Lines 46-52: the handler of [onaudioprocess], given the channel data. *)
Definition onaudioprocess (channelData : list Q) (s : State) : State :=
  if isRecording s then
    {| audioContext := audioContext s; mediaStream := mediaStream s;
       scriptProcessor := scriptProcessor s;
       audioData := audioData s ++ [channelData];
       isRecording := isRecording s; live_streams := live_streams s;
       open_contexts := open_contexts s |}
  else s.

(** Line 94: [audioData.reduce((acc, chunk) => acc + chunk.length, 0)] *)
Definition totalLength (chunks : list (list Q)) : Z :=
  foldl (fun acc chunk => acc + len chunk) 0 chunks.

(** Lines 95-100 *)
Definition mergeChunks (chunks : list (list Q)) : list Q :=
  let mergedData := replicate (Z.to_nat (totalLength chunks)) 0%Q in
  fst (foldl (fun '(mergedData, offset) chunk =>
                (typed_set_at mergedData chunk offset, offset + len chunk))
             (mergedData, 0) chunks).

(** Line 104: [audioContext?.sampleRate || SAMPLE_RATE] *)
Definition actualSampleRate (s : State) : Z :=
  match audioContext s with
  | Some rate => if rate =? 0 then SAMPLE_RATE else rate
  | None => SAMPLE_RATE
  end.

(** Lines 79-114: the WAV bytes, and the state afterwards. *)
Definition stopRecording (s : State) : list Z * State :=
  let mergedData := mergeChunks (audioData s) in
  let wavBlob := float32ToWav mergedData (actualSampleRate s) in
  (wavBlob,
   {| audioContext := None; mediaStream := false; scriptProcessor := false;
      audioData := []; isRecording := false;
      live_streams := if mediaStream s then pred (live_streams s) else live_streams s;
      open_contexts :=
        if audioContext s is Some _ then pred (open_contexts s) else open_contexts s |}).

(** What the browser answers during one recording: whether
    [getUserMedia] grants the microphone, the sample rate of the context
    that [new AudioContext] makes ([None]: the constructor raises), and the
    chunks that the processor delivers before the timer fires. *)
Record World := {
  getUserMedia : bool;
  newAudioContext : option Z;
  delivered : list (list Q)
}.

Inductive Outcome (A : Type) :=
| Returns (value : A)
| Throws (message : string).
Arguments Returns {A} value.
Arguments Throws {A} message.

(** Lines 20-73.  The [catch] of lines 69-72 covers the set-up only: the
    promise of lines 58-67 is returned, not awaited. *)
Definition startRecording (w : World) (s : State) : Outcome (list Z) * State :=
  if getUserMedia w then
    let s := {| audioContext := audioContext s; mediaStream := true;
                scriptProcessor := scriptProcessor s; audioData := audioData s;
                isRecording := isRecording s; live_streams := S (live_streams s);
                open_contexts := open_contexts s |} in
    match newAudioContext w with
    | Some rate =>
        let s := {| audioContext := Some rate; mediaStream := true;
                    scriptProcessor := true; audioData := [];
                    isRecording := true; live_streams := live_streams s;
                    open_contexts := S (open_contexts s) |} in
        let s := foldl (fun s chunk => onaudioprocess chunk s) s (delivered w) in
        let '(wavBlob, s) := stopRecording s in
        (Returns wavBlob, s)
    | None =>
        (Throws "No se pudo acceder al micrófono. Verifica los permisos.", s)
    end
  else
    (Throws "No se pudo acceder al micrófono. Verifica los permisos.", s).

(** Lines 188-212: what [fetch] answers to the request. *)
Inductive Fetched (J : Type) :=
| NetworkError
| Response (ok : bool) (status : Z) (json : Outcome J).
Arguments NetworkError {J}.
Arguments Response {J} ok status json.

Record Request := {
  url : string;
  method : string;
  field : string;
  filename : string;
  body : list Z
}.

(** [import.meta.env.PUBLIC_API_URL || 'http://localhost:8000'] *)
Definition API_URL (env : option string) : string :=
  match env with
  | Some u => if String.eqb u "" then "http://localhost:8000" else u
  | None => "http://localhost:8000"
  end.

Definition request (env : option string) (audioBlob : list Z) : Request :=
  {| url := (API_URL env ++ "/api/analyze")%string; method := "POST";
     field := "audio"; filename := "recording.wav"; body := audioBlob |}.

Definition sendAudioToBackend {J} (env : option string) (server : Request -> Fetched J)
    (audioBlob : list Z) : Outcome J :=
  match server (request env audioBlob) with
  | NetworkError => Throws "Error al enviar audio al servidor"
  | Response ok status json =>
      if ok then
        match json with
        | Returns value => Returns value
        | Throws _ => Throws "Error al enviar audio al servidor"
        end
      else Throws "Error al enviar audio al servidor"
  end.

End Recorder.

(** *** [drawWaveform] ([audioProcessing.js], lines 232-260)

    The drawing is the list of the calls made on the 2D context.
    [Math.min(...a)] and [Math.max(...a)] are kept abstract (on an empty
    array they are the infinities). *)

Class MinMax (F : Type) := {
  num_min : list F -> F;
  num_max : list F -> F
}.

Inductive Command (F : Type) :=
| FillStyle (color : string)
| FillRect (x y w h : Z)
| StrokeStyle (color : string)
| LineWidth (w : Z)
| BeginPath
| MoveTo (x : Z) (y : F)
| LineTo (x : Z) (y : F)
| Stroke.
Arguments FillStyle {F} color.
Arguments FillRect {F} x y w h.
Arguments StrokeStyle {F} color.
Arguments LineWidth {F} w.
Arguments BeginPath {F}.
Arguments MoveTo {F} x y.
Arguments LineTo {F} x y.
Arguments Stroke {F}.

(** Line 243: [Math.ceil(data.length / width)].  (For [width = 0] the
    quotient is not a number of samples; the loop then has no iteration and
    [step] is not used.) *)
Definition waveform_step (n width : Z) : Z := (n + width - 1) / width.

(** Lines 252-253: the samples of column [i]. *)
Definition waveform_column {F} (data : list F) (width i : Z) : list F :=
  let step := waveform_step (len data) width in
  slice (i * step) ((i + 1) * step) data.

Definition drawWaveform {F} `{Number F} `{MinMax F} (data : list F) (width height : Z)
    : list (Command F) :=
  let amp := num_div (num_of_Z height) (num_of_Z 2) in
  [FillStyle "#0a0a0a"; FillRect 0 0 width height;
   StrokeStyle "#8b5cf6"; LineWidth 2; BeginPath]
  ++ for_range 0 width
       (fun calls i =>
          let min := num_min (waveform_column data width i) in
          let max := num_max (waveform_column data width i) in
          calls ++ [MoveTo i (num_mul (num_add (num_of_Z 1) min) amp);
                    LineTo i (num_mul (num_add (num_of_Z 1) max) amp)]) []
  ++ [Stroke].

(** *** The earlier model loader ([unnamed/part_000], lines 8-125)

    The loader before spoofing detection was added: the same variables
    less [spoofingModel] and [spoofingConfig]. *)

Module Loader0.
Import Loader.

Record State0 := {
  languageModel0 : option LayersModel;
  accentModel0 : option LayersModel;
  modelsLoaded0 : bool;
  languageLabels0 : option (list string)
}.

(** Lines 8-11 *)
Definition initial0 : State0 := {|
  languageModel0 := None; accentModel0 := None;
  modelsLoaded0 := false; languageLabels0 := None
|}.

Record World0 := {
  tf_ready0 : Outcome unit;
  fetch_labels0 : Fetched (list string);
  loadLayersModel0 : string -> Outcome LayersModel
}.

(** Lines 22-33 *)
Definition loadLabels0 (w : World0) (s : State0) : State0 :=
  match fetch_labels0 w with
  | FetchOk json =>
      {| languageModel0 := languageModel0 s; accentModel0 := accentModel0 s;
         modelsLoaded0 := modelsLoaded0 s; languageLabels0 := Some json |}
  | FetchNotOk => s
  | FetchThrows =>
      {| languageModel0 := languageModel0 s; accentModel0 := accentModel0 s;
         modelsLoaded0 := modelsLoaded0 s;
         languageLabels0 := Some ["Español"; "Inglés"; "Francés"; "Alemán"]%string |}
  end.

(** What [loadModels] returns: [{ languageModel, accentModel, languageLabels }]. *)
Record Models0 := {
  r_languageModel0 : option LayersModel;
  r_accentModel0 : option LayersModel;
  r_languageLabels0 : option (list string)
}.

(** Lines 39-100 *)
Definition loadModels0 (w : World0) (s : State0) : Outcome Models0 * State0 :=
  if modelsLoaded0 s then
    (Returns {| r_languageModel0 := languageModel0 s; r_accentModel0 := accentModel0 s;
                r_languageLabels0 := languageLabels0 s |}, s)
  else
    match tf_ready0 w with
    | Throws message => (Throws (rethrow message), s)
    | Returns _ =>
        let s := loadLabels0 w s in
        match loadLayersModel0 w "/models/language/model.json" with
        | Throws message =>
            (Throws (rethrow ("Error cargando modelo de idioma: " ++ message)%string), s)
        | Returns model =>
            let accent :=
              match loadLayersModel0 w "/models/accent/model.json" with
              | Returns model => Some model
              | Throws _ => None
              end in
            let s := {| languageModel0 := Some model; accentModel0 := accent;
                        modelsLoaded0 := true; languageLabels0 := languageLabels0 s |} in
            (Returns {| r_languageModel0 := languageModel0 s;
                        r_accentModel0 := accentModel0 s;
                        r_languageLabels0 := languageLabels0 s |}, s)
        end
    end.

(** Lines 113-125 *)
Definition unloadModels0 (s : State0) : State0 :=
  {| languageModel0 := None; accentModel0 := None;
     modelsLoaded0 := false; languageLabels0 := None |}.

(** The part of the later loader's state and world that the earlier
    loader has. *)
Definition earlier_state (s : State) : State0 :=
  {| languageModel0 := languageModel s; accentModel0 := accentModel s;
     modelsLoaded0 := modelsLoaded s; languageLabels0 := languageLabels s |}.

Definition earlier_world (w : World) : World0 :=
  {| tf_ready0 := tf_ready w; fetch_labels0 := fetch_labels w;
     loadLayersModel0 := loadLayersModel w |}.

End Loader0.

(** ** Inputs used in examples *)

(** Channel data of 2048 samples, silent but for the last one: after
    padding, frame 0 of the signal is these 2048 samples. *)
Definition remainder_input : list Q := replicate 2047 0%Q ++ [1%Q].

(** A short frame with samples from -1/2 to 1/2. *)
Definition ramp_frame : list Q := (fun k => Qmake (k - 50) 100) <$> seqZ 0 101.

(** A quiet recording: 2048 samples of amplitude [2^-24], about 6e-8. *)
Definition quiet_recording : list spec_float :=
  replicate 2048 (S754_finite false 8388608 (-47)).

(** Its feature sequence, evaluated. *)
Definition quiet_features : list (list spec_float) :=
  Eval vm_compute in features quiet_recording.

(** A float32 tensor of 94 rows and 120 columns with no constant column:
    four rows with every entry [2^-24], then rows of zeros. *)
Definition quiet_tensor : list (list spec_float) :=
  replicate 4 (replicate 120 (S754_finite false 8388608 (-47)))
  ++ replicate 90 (replicate 120 (S754_zero false)).

(** A float32 tensor of 94 rows and 2 columns with every entry 1: not a
    feature sequence of [extractMFCC], whose last four rows are zeros. *)
Definition ones_tensor : list (list spec_float) :=
  replicate 94 (replicate 2 (S754_finite false 8388608 (-23))).

(** The number of rows of the tensor, as the float32 scalar by which [mean]
    divides. *)
Definition T94 : spec_float := fround (num_of_Z 94).

(** A world where the labels are served, the spoofing configuration cannot
    be fetched, and no model file exists. *)
Definition world_without_models : Loader.World := {|
  Loader.tf_ready := Loader.Returns tt;
  Loader.fetch_labels := Loader.FetchOk ["es"; "en"; "fr"; "de"]%string;
  Loader.fetch_spoofingConfig := Loader.FetchThrows;
  Loader.loadLayersModel := fun path => Loader.Throws ("Request to " ++ path ++ " failed with status code 404")%string
|}.

(** A world where only the language model exists. *)
Definition world_language_only : Loader.World := {|
  Loader.tf_ready := Loader.Returns tt;
  Loader.fetch_labels := Loader.FetchNotOk;
  Loader.fetch_spoofingConfig := Loader.FetchNotOk;
  Loader.loadLayersModel := fun path =>
    if String.eqb path "/models/language/model.json"
    then Loader.Returns {| Loader.model_path := path |}
    else Loader.Throws "Failed to fetch"
|}.

(** * Properties *)

(** ** Arrays and loops *)

Lemma len_nonneg {A} (a : list A) : 0 <= len a.
Proof. unfold len. lia. Qed.

Lemma len_app {A} (a b : list A) : len (a ++ b) = len a + len b.
Proof. unfold len. rewrite length_app. lia. Qed.

Lemma len_replicate {A} (n : nat) (x : A) : len (replicate n x) = Z.of_nat n.
Proof. unfold len. by rewrite length_replicate. Qed.

Lemma len_zeros {F} `{Number F} (n : Z) : len (zeros (F:=F) n) = Z.max 0 n.
Proof. unfold zeros. rewrite len_replicate. lia. Qed.

Lemma slice_inside {A} (b e : Z) (a : list A) :
  0 <= b -> b <= e -> e <= len a ->
  slice b e a = take (Z.to_nat (e - b)) (drop (Z.to_nat b) a).
Proof.
  intros Hb Hbe He. unfold slice, slice_index.
  destruct (Z.ltb_spec b 0), (Z.ltb_spec e 0); try lia.
  by rewrite !Z.min_l by lia.
Qed.

Lemma len_slice_inside {A} (b e : Z) (a : list A) :
  0 <= b -> b <= e -> e <= len a -> len (slice b e a) = e - b.
Proof.
  intros Hb Hbe He. rewrite slice_inside by done.
  unfold len in *. rewrite length_take, length_drop. lia.
Qed.

Lemma for_range_empty {S} (from to : Z) (body : S -> Z -> S) (init : S) :
  to <= from -> for_range from to body init = init.
Proof. intros. unfold for_range. by rewrite seqZ_nil by lia. Qed.

Lemma for_range_last {S} (from to : Z) (body : S -> Z -> S) (init : S) :
  from <= to ->
  for_range from (to + 1) body init = body (for_range from to body init) to.
Proof.
  intros. unfold for_range.
  replace (to + 1 - from) with ((to - from) + 1) by lia.
  rewrite seqZ_app by lia. rewrite foldl_app.
  rewrite (seqZ_cons (from + (to - from)) 1) by lia.
  rewrite (seqZ_nil _ (Z.pred 1)) by lia. simpl.
  by replace (from + (to - from)) with to by lia.
Qed.

(** A loop invariant that holds at the start and is kept by the body holds
    at the end. *)
Lemma for_range_invariant {S} (P : Z -> S -> Prop) (n : Z) (body : S -> Z -> S) (init : S) :
  0 <= n ->
  P 0 init ->
  (forall i s, 0 <= i < n -> P i s -> P (i + 1) (body s i)) ->
  P n (for_range 0 n body init).
Proof.
  intros Hn H0 Hstep.
  assert (forall k : nat, Z.of_nat k <= n ->
            P (Z.of_nat k) (for_range 0 (Z.of_nat k) body init)) as Hk.
  { induction k as [|k IH]; intros Hle.
    - by rewrite for_range_empty by done.
    - rewrite Nat2Z.inj_succ, <- Z.add_1_r.
      rewrite for_range_last by lia. apply Hstep; [lia|]. apply IH. lia. }
  specialize (Hk (Z.to_nat n)). rewrite Z2Nat.id in Hk by done. apply Hk. lia.
Qed.

(** ** [audioBufferToFloat32] *)

Lemma typed_set_zeros {F} `{Number F} (n : Z) (source : list F) :
  len source <= n ->
  typed_set (zeros n) source = source ++ zeros (n - len source).
Proof.
  intros Hn. unfold typed_set, zeros, len in *.
  rewrite drop_replicate, length_replicate.
  replace (Z.to_nat (n - Z.of_nat (length source)))
    with (Z.to_nat n - length source)%nat by lia.
  apply take_ge. rewrite length_app, length_replicate. lia.
Qed.

Lemma audioBufferToFloat32_cases {F} `{Number F} (channelData : list F) :
  (len channelData > 48000 /\
     audioBufferToFloat32 channelData = take (Z.to_nat 48000) channelData)
  \/ (len channelData < 48000 /\
      audioBufferToFloat32 channelData = channelData ++ zeros (48000 - len channelData))
  \/ (len channelData = 48000 /\ audioBufferToFloat32 channelData = channelData).
Proof.
  unfold audioBufferToFloat32.
  change (sampleRate CONFIG * duration CONFIG) with 48000.
  destruct (Z.gtb_spec (len channelData) 48000) as [Hgt|Hle].
  - left. split; [lia|]. rewrite slice_inside by lia.
    by rewrite Z.sub_0_r.
  - destruct (Z.ltb_spec (len channelData) 48000) as [Hlt|Hge].
    + right; left. split; [done|]. apply typed_set_zeros. lia.
    + right; right. split; [lia|done].
Qed.

Lemma len_audioBufferToFloat32 {F} `{Number F} (channelData : list F) :
  len (audioBufferToFloat32 channelData) = 48000.
Proof.
  destruct (audioBufferToFloat32_cases channelData) as [[Hl ->]|[[Hl ->]|[Hl ->]]].
  - unfold len in *. rewrite length_take. lia.
  - rewrite len_app, len_zeros. lia.
  - done.
Qed.

(** C2: whatever the length of the channel data, the result has
    [sampleRate * duration = 48000] samples; a longer input is cut to its
    first 48000 samples, a shorter one is followed by zeros (so an input of
    half the length gives a second half of zeros), and an input of exactly
    that length is returned as it is. *)
Theorem audioBufferToFloat32_fixed_length {F} `{Number F} (channelData : list F) :
  let targetLength := sampleRate CONFIG * duration CONFIG in
  let out := audioBufferToFloat32 channelData in
  targetLength = 48000 /\
  len out = targetLength /\
  (len channelData > targetLength -> out = take (Z.to_nat targetLength) channelData) /\
  (len channelData < targetLength ->
     out = channelData ++ zeros (targetLength - len channelData)) /\
  (len channelData = targetLength -> out = channelData) /\
  (len channelData = targetLength / 2 ->
     forall i, targetLength / 2 <= i < targetLength -> out !! Z.to_nat i = Some num_zero).
Proof.
  cbv zeta. change (sampleRate CONFIG * duration CONFIG) with 48000.
  split; [done|]. split; [apply len_audioBufferToFloat32|].
  destruct (audioBufferToFloat32_cases channelData) as [[Hl ->]|[[Hl ->]|[Hl ->]]];
    repeat split; try lia; try done.
  intros Hhalf i Hi. change (48000 / 2) with 24000 in *.
  rewrite lookup_app_r by (unfold len in Hhalf; lia).
  unfold zeros. apply lookup_replicate_2. unfold len in *. lia.
Qed.

(** ** Frames and the feature sequence *)

Section ExtractProperties.
Context {F : Type} `{Number F}.
Implicit Types (frame audioData channelData : list F) (x : list (list F)).

Lemma len_put (a : list F) (i : Z) (v : F) : len (put a i v) = len a.
Proof. unfold put, len. destruct (0 <=? i); by rewrite ?length_insert. Qed.

Lemma get_put_eq (a : list F) (i : Z) (v : F) :
  0 <= i < len a -> get (put a i v) i = fround v.
Proof.
  intros Hi. unfold get, put, len in *.
  destruct (Z.leb_spec 0 i); [|lia].
  apply nth_lookup_Some, list_lookup_insert_eq. lia.
Qed.

Lemma get_put_ne (a : list F) (i j : Z) (v : F) :
  0 <= i -> 0 <= j -> i <> j -> get (put a i v) j = get a j.
Proof.
  intros Hi Hj Hne. unfold get, put.
  destruct (Z.leb_spec 0 i), (Z.leb_spec 0 j); try lia.
  rewrite !nth_lookup, list_lookup_insert_ne; [done|lia].
Qed.

Lemma len_band_step frame (ff : list F) (j : Z) : len (band_step frame ff j) = len ff.
Proof. unfold band_step. cbv zeta. by rewrite !len_put. Qed.

Lemma len_frameFeatures frame : len (frameFeatures frame) = nFeatures CONFIG.
Proof.
  unfold frameFeatures.
  apply (for_range_invariant (fun _ ff => len ff = nFeatures CONFIG)).
  - done.
  - by rewrite len_zeros.
  - intros i ff _ Hff. by rewrite len_band_step.
Qed.

Lemma for_range_push {A} (g : Z -> A) (from to : Z) (init : list A) :
  for_range from to (fun acc i => acc ++ [g i]) init = init ++ (g <$> seqZ from (to - from)).
Proof.
  unfold for_range. generalize (seqZ from (to - from)). intros l. revert init.
  induction l as [|i l IH]; intros init; simpl.
  - by rewrite app_nil_r.
  - rewrite IH. by rewrite <- app_assoc.
Qed.

Lemma natural_features_map audioData :
  natural_features audioData =
  (fun i => frameFeatures (frame_at audioData i)) <$> seqZ 0 (numFrames audioData).
Proof. unfold natural_features. rewrite for_range_push. by rewrite Z.sub_0_r. Qed.

Lemma len_natural_features audioData :
  len (natural_features audioData) = Z.max 0 (numFrames audioData).
Proof.
  rewrite natural_features_map. unfold len.
  rewrite length_fmap, length_seqZ. lia.
Qed.

Lemma natural_features_rows audioData :
  Forall (fun v => len v = nFeatures CONFIG) (natural_features audioData).
Proof.
  rewrite natural_features_map. apply Forall_fmap, Forall_true.
  intros i. apply len_frameFeatures.
Qed.

Lemma numFrames_bounds audioData :
  hopLength CONFIG * (numFrames audioData - 1) <= len audioData - fftSize CONFIG
    < hopLength CONFIG * numFrames audioData.
Proof.
  unfold numFrames. change (hopLength CONFIG) with 512.
  pose proof (Z.div_mod (len audioData - fftSize CONFIG) 512 ltac:(lia)).
  pose proof (Z.mod_pos_bound (len audioData - fftSize CONFIG) 512 ltac:(lia)).
  lia.
Qed.

(** Every frame of the loop lies inside the signal, so the clamp of line
    179 is idle and the frame has [fftSize] samples. *)
Lemma frame_at_inside audioData (i : Z) :
  0 <= i < numFrames audioData ->
  frame_at audioData i =
    take (Z.to_nat (fftSize CONFIG)) (drop (Z.to_nat (i * hopLength CONFIG)) audioData).
Proof.
  intros Hi. pose proof (numFrames_bounds audioData) as Hb.
  unfold frame_at. cbv zeta.
  change (hopLength CONFIG) with 512 in *. change (fftSize CONFIG) with 2048 in *.
  rewrite Z.min_l by lia. rewrite slice_inside by lia.
  f_equal. lia.
Qed.

Lemma len_frame_at audioData (i : Z) :
  0 <= i < numFrames audioData -> len (frame_at audioData i) = fftSize CONFIG.
Proof.
  intros Hi. pose proof (numFrames_bounds audioData) as Hb.
  rewrite frame_at_inside by done. unfold len in *.
  change (hopLength CONFIG) with 512 in *. change (fftSize CONFIG) with 2048 in *.
  rewrite length_take, length_drop. lia.
Qed.

Lemma pad_loop_enough (fuel : nat) x :
  targetFrames <= len x + Z.of_nat fuel ->
  pad_loop fuel x =
    x ++ replicate (Z.to_nat (targetFrames - len x)) (zeros (nFeatures CONFIG)).
Proof.
  revert x. induction fuel as [|fuel IH]; intros x Hfuel; simpl.
  - replace (Z.to_nat (targetFrames - len x)) with 0%nat by lia.
    by rewrite app_nil_r.
  - destruct (Z.ltb_spec (len x) targetFrames) as [Hlt|Hge].
    + rewrite IH by (rewrite len_app; unfold len in *; simpl; lia).
      rewrite len_app. change (len [zeros (nFeatures CONFIG)]) with 1.
      replace (Z.to_nat (targetFrames - len x))
        with (S (Z.to_nat (targetFrames - (len x + 1)))) by lia.
      simpl. by rewrite <- app_assoc.
    + replace (Z.to_nat (targetFrames - len x)) with 0%nat by lia.
      by rewrite app_nil_r.
Qed.

Lemma fit_short x :
  len x <= targetFrames ->
  fit x = x ++ replicate (Z.to_nat (targetFrames - len x)) (zeros (nFeatures CONFIG)).
Proof.
  intros Hx. unfold fit. cbv zeta.
  rewrite pad_loop_enough by (pose proof (len_nonneg x); unfold targetFrames; lia).
  rewrite len_app, len_replicate.
  destruct (Z.gtb_spec (len x + Z.of_nat (Z.to_nat (targetFrames - len x))) targetFrames);
    [lia|done].
Qed.

Lemma fit_long x :
  targetFrames < len x -> fit x = take (Z.to_nat targetFrames) x.
Proof.
  intros Hx. unfold fit. cbv zeta.
  rewrite pad_loop_enough by (unfold targetFrames in *; lia).
  replace (Z.to_nat (targetFrames - len x)) with 0%nat by lia.
  simpl. rewrite app_nil_r.
  destruct (Z.gtb_spec (len x) targetFrames); [done|lia].
Qed.

Lemma len_fit x : len (fit x) = targetFrames.
Proof.
  destruct (Z.le_gt_cases (len x) targetFrames) as [Hle|Hgt].
  - rewrite fit_short by done. rewrite len_app, len_replicate.
    pose proof (len_nonneg x). lia.
  - rewrite fit_long by done. unfold len in *. rewrite length_take.
    unfold targetFrames in *. lia.
Qed.

Lemma fit_rows x :
  Forall (fun v => len v = nFeatures CONFIG) x ->
  Forall (fun v => len v = nFeatures CONFIG) (fit x).
Proof.
  intros Hx. destruct (Z.le_gt_cases (len x) targetFrames) as [Hle|Hgt].
  - rewrite fit_short by done. apply Forall_app. split; [done|].
    apply Forall_replicate. by rewrite len_zeros.
  - rewrite fit_long by done. by apply Forall_take.
Qed.
End ExtractProperties.

Section Shape.
Context {F : Type} `{Number F} `{Sqrt F}.

Lemma len_normalize_with (eps : F) (x : list (list F)) :
  len (normalize_with eps x) = len x.
Proof. unfold normalize_with, len. cbv zeta. by rewrite length_fmap. Qed.

Lemma normalize_with_rows (eps : F) (n : Z) (x : list (list F)) :
  Forall (fun v => len v = n) x ->
  Forall (fun v => len v = n) (normalize_with eps x).
Proof.
  intros Hx. unfold normalize_with. cbv zeta. apply Forall_fmap.
  eapply Forall_impl; [exact Hx|].
  intros row Hrow. simpl. unfold len in *. by rewrite length_imap.
Qed.

(** C1: the feature sequence has [targetFrames = 94] entries of
    [3 * nMfcc = 120] numbers each, whatever the natural number of frames
    of the signal: a shorter sequence is followed by vectors of zeros, a
    longer one loses its trailing entries.  The tensor that [extractMFCC]
    returns has the same shape. *)
Theorem feature_sequence_shape (audioData channelData : list F) :
  let natural := natural_features audioData in
  targetFrames = 94 /\ 3 * nMfcc CONFIG = 120 /\ nFeatures CONFIG = 3 * nMfcc CONFIG /\
  len (fit natural) = targetFrames /\
  Forall (fun v => len v = 3 * nMfcc CONFIG) (fit natural) /\
  (len natural < targetFrames ->
     fit natural =
       natural ++ replicate (Z.to_nat (targetFrames - len natural))
                    (replicate (Z.to_nat (nFeatures CONFIG)) num_zero)) /\
  (len natural > targetFrames -> fit natural = take (Z.to_nat targetFrames) natural) /\
  len (features channelData) = targetFrames /\
  Forall (fun v => len v = 3 * nMfcc CONFIG) (features channelData) /\
  len (extractMFCC channelData) = targetFrames /\
  Forall (fun v => len v = 3 * nMfcc CONFIG) (extractMFCC channelData).
Proof.
  cbv zeta. change (3 * nMfcc CONFIG) with (nFeatures CONFIG).
  repeat split.
  - apply len_fit.
  - apply fit_rows, natural_features_rows.
  - intros Hlt. apply fit_short. lia.
  - intros Hgt. apply fit_long. lia.
  - apply len_fit.
  - apply fit_rows, natural_features_rows.
  - unfold extractMFCC, normalize. rewrite len_normalize_with. apply len_fit.
  - apply normalize_with_rows, fit_rows, natural_features_rows.
Qed.
End Shape.

Section Segmentation.
Context {F : Type} `{Number F}.

(** C5: the loop of [extractMFCC] handles
    [max 0 (floor ((len - fftSize) / hopLength) + 1)] frames, in signal
    order; frame [i] is the [fftSize] samples from sample [i * hopLength]
    on; a signal shorter than [fftSize] gives no frame (and no error: the
    functions are total). *)
Theorem segmentation_frames (audioData : list F) :
  let n := (len audioData - fftSize CONFIG) / hopLength CONFIG + 1 in
  natural_features audioData =
    (fun i => frameFeatures (frame_at audioData i)) <$> seqZ 0 (Z.max 0 n) /\
  len (natural_features audioData) = Z.max 0 n /\
  (forall i, 0 <= i < Z.max 0 n ->
     frame_at audioData i =
       take (Z.to_nat (fftSize CONFIG)) (drop (Z.to_nat (i * hopLength CONFIG)) audioData) /\
     len (frame_at audioData i) = fftSize CONFIG /\
     forall k, 0 <= k < fftSize CONFIG ->
       frame_at audioData i !! Z.to_nat k = audioData !! Z.to_nat (i * hopLength CONFIG + k)) /\
  (len audioData < fftSize CONFIG -> natural_features audioData = []).
Proof.
  cbv zeta. fold (numFrames audioData).
  assert (Hmap : natural_features audioData =
    (fun i => frameFeatures (frame_at audioData i)) <$> seqZ 0 (Z.max 0 (numFrames audioData))).
  { rewrite natural_features_map.
    destruct (Z.le_gt_cases (numFrames audioData) 0).
    - rewrite Z.max_l by lia. by rewrite !seqZ_nil by lia.
    - by rewrite Z.max_r by lia. }
  repeat split.
  - exact Hmap.
  - apply len_natural_features.
  - apply frame_at_inside. lia.
  - apply len_frame_at. lia.
  - intros k Hk. rewrite frame_at_inside by lia.
    change (fftSize CONFIG) with 2048 in *. change (hopLength CONFIG) with 512.
    rewrite lookup_take_lt by lia. rewrite lookup_drop. f_equal. lia.
  - intros Hshort. rewrite natural_features_map.
    pose proof (numFrames_bounds audioData) as Hb.
    change (fftSize CONFIG) with 2048 in *. change (hopLength CONFIG) with 512 in *.
    by rewrite seqZ_nil by lia.
Qed.

Lemma features_natural (channelData : list F) :
  features channelData =
    natural_features (audioBufferToFloat32 channelData) ++ replicate 4 (replicate 120 num_zero).
Proof.
  pose proof (len_audioBufferToFloat32 channelData) as Hlen.
  assert (Hl : len (natural_features (audioBufferToFloat32 channelData)) = 90).
  { rewrite len_natural_features. unfold numFrames. rewrite Hlen. reflexivity. }
  unfold features. rewrite fit_short by (rewrite Hl; unfold targetFrames; lia).
  rewrite Hl. reflexivity.
Qed.

(** Entry [i] of the feature sequence, for [i < 90], is the feature
    vector of frame [i]. *)
Lemma features_lookup (channelData : list F) (i : Z) :
  0 <= i < 90 ->
  features channelData !! Z.to_nat i =
    Some (frameFeatures (frame_at (audioBufferToFloat32 channelData) i)).
Proof.
  intros Hi. pose proof (len_audioBufferToFloat32 channelData) as Hlen.
  rewrite features_natural, natural_features_map.
  assert (Hn : numFrames (audioBufferToFloat32 channelData) = 90)
    by (unfold numFrames; rewrite Hlen; reflexivity).
  rewrite Hn, lookup_app_l by (rewrite length_fmap, length_seqZ; lia).
  rewrite list_lookup_fmap, lookup_seqZ_lt by lia. simpl.
  by rewrite Z2Nat.id by lia.
Qed.

(** C10: with [CONFIG], a signal of 48000 samples has 90 frames, fewer
    than [targetFrames = 94]: for every input the sequence is padded, never
    cut, and entries 90 to 93 of the feature sequence are vectors of
    zeros. *)
Theorem natural_frame_count_90 (channelData : list F) :
  let audioData := audioBufferToFloat32 channelData in
  let natural := natural_features audioData in
  numFrames audioData = 90 /\
  len natural = 90 /\
  90 < targetFrames /\
  (len (pad_loop (Z.to_nat targetFrames) natural) >? targetFrames) = false /\
  features channelData = natural ++ replicate 4 (replicate 120 num_zero) /\
  (forall i, 90 <= i < 94 ->
     features channelData !! Z.to_nat i = Some (replicate 120 num_zero)).
Proof.
  cbv zeta.
  pose proof (len_audioBufferToFloat32 channelData) as Hlen.
  assert (Hn : numFrames (audioBufferToFloat32 channelData) = 90).
  { unfold numFrames. rewrite Hlen. reflexivity. }
  assert (Hl : len (natural_features (audioBufferToFloat32 channelData)) = 90).
  { rewrite len_natural_features, Hn. reflexivity. }
  pose proof (features_natural channelData) as Hf.
  repeat split; try done.
  - rewrite pad_loop_enough by (rewrite Hl; unfold targetFrames; lia).
    rewrite len_app, len_replicate, Hl. reflexivity.
  - intros i Hi. rewrite Hf.
    rewrite lookup_app_r by (unfold len in Hl; lia).
    apply lookup_replicate_2. unfold len in Hl. lia.
Qed.
End Segmentation.

(** ** The feature vector of one frame *)

Section Bands.
Context {F : Type} `{Number F}.
Implicit Types (frame v : list F).

Lemma get_lookup v (i : Z) (a : F) :
  0 <= i -> v !! Z.to_nat i = Some a -> get v i = a.
Proof.
  intros Hi Ha. unfold get. destruct (Z.leb_spec 0 i); [|lia].
  by apply nth_lookup_Some.
Qed.

Lemma lookup_get v (i : Z) :
  0 <= i < len v -> v !! Z.to_nat i = Some (get v i).
Proof.
  intros Hi. unfold get, len in *. destruct (Z.leb_spec 0 i); [|lia].
  destruct (nth_lookup_or_length v (Z.to_nat i) num_zero) as [Hn|Hn]; [done|lia].
Qed.

(** Two arrays of one length with the same reads are the same array. *)
Lemma array_eq v1 v2 :
  len v1 = len v2 -> (forall i, 0 <= i < len v1 -> get v1 i = get v2 i) -> v1 = v2.
Proof.
  intros Hlen Hget. apply list_eq. intros i.
  destruct (decide (Z.of_nat i < len v1)) as [Hi|Hi].
  - pose proof (lookup_get v1 (Z.of_nat i) ltac:(lia)) as H1.
    pose proof (lookup_get v2 (Z.of_nat i) ltac:(lia)) as H2.
    rewrite Nat2Z.id in H1, H2. rewrite H1, H2, Hget by lia. done.
  - unfold len in *. rewrite !lookup_ge_None_2 by lia. done.
Qed.

(** An index loop that reads [frame[k]] is a fold over the slice. *)
Lemma index_loop_slice {St} (g : St -> F -> St) frame (n : nat) :
  forall (start : Z) (init : St),
    0 <= start -> start + Z.of_nat n <= len frame ->
    foldl (fun s k => g s (get frame k)) init (seqZ start (Z.of_nat n)) =
    foldl g init (take n (drop (Z.to_nat start) frame)).
Proof.
  induction n as [|n IH]; intros start init Hs Hn.
  - by rewrite seqZ_nil by lia.
  - rewrite seqZ_cons by lia.
    pose proof (lookup_get frame start ltac:(lia)) as Hk.
    rewrite (drop_S _ _ _ Hk). simpl.
    replace (Z.pred (Z.of_nat (S n))) with (Z.of_nat n) by lia.
    rewrite IH by lia. by replace (Z.to_nat (Z.succ start)) with (S (Z.to_nat start)) by lia.
Qed.

Lemma bin_inside frame (j : Z) :
  0 <= j < nMfcc CONFIG ->
  let binSize := len frame / nMfcc CONFIG in
  0 <= binSize /\ 0 <= j * binSize /\ j * binSize + binSize <= len frame.
Proof.
  intros Hj. cbv zeta. change (nMfcc CONFIG) with 40 in *.
  pose proof (len_nonneg frame).
  pose proof (Z.mul_div_le (len frame) 40 ltac:(lia)).
  pose proof (Z.div_pos (len frame) 40 ltac:(lia) ltac:(lia)).
  nia.
Qed.

Lemma len_bin frame (j : Z) :
  0 <= j < nMfcc CONFIG -> len (bin frame j) = len frame / nMfcc CONFIG.
Proof.
  intros Hj. destruct (bin_inside frame j Hj) as (Hw & Hs & He).
  unfold bin. cbv zeta. rewrite len_slice_inside by lia. lia.
Qed.

(** Lines 188-197: what is stored at index [j]. *)
Lemma band_sum frame (j : Z) :
  0 <= j < nMfcc CONFIG ->
  let binSize := len frame / nMfcc CONFIG in
  let start := j * binSize in
  let end_ := Z.min (start + binSize) (len frame) in
  fround (num_div
    (for_range start end_ (fun sum k => num_add sum (num_abs (get frame k))) num_zero)
    (num_of_Z binSize)) = energy frame j.
Proof.
  intros Hj. cbv zeta. destruct (bin_inside frame j Hj) as (Hw & Hs & He).
  unfold energy, mean_abs. rewrite len_bin by done.
  do 2 f_equal. rewrite Z.min_l by lia. unfold for_range, bin. cbv zeta.
  rewrite slice_inside by lia.
  replace (j * (len frame / nMfcc CONFIG) + len frame / nMfcc CONFIG
           - j * (len frame / nMfcc CONFIG)) with (len frame / nMfcc CONFIG) by lia.
  rewrite <- (Z2Nat.id (len frame / nMfcc CONFIG)) at 2 by done.
  rewrite (index_loop_slice (fun s a => num_add s (num_abs a))) by lia.
  done.
Qed.

Lemma band_step_invariant frame (n : Z) (ff : list F) :
  0 <= n < nMfcc CONFIG ->
  bands_done frame n ff -> bands_done frame (n + 1) (band_step frame ff n).
Proof.
  intros Hn [Hlen Hdone]. split; [by rewrite len_band_step|].
  pose proof (band_sum frame n Hn) as Hsum. cbv zeta in Hsum.
  unfold band_step. cbv zeta.
  set (e := num_div _ _) in *.
  change (nMfcc CONFIG) with 40 in *. change (nFeatures CONFIG) with 120 in *.
  set (ff1 := put ff n e).
  set (d := if 0 <? n then num_sub (get ff1 n) (get ff1 (n - 1)) else num_zero).
  set (ff2 := put ff1 (n + 40) d).
  set (d' := if 0 <? n then num_sub (get ff2 (n + 40)) (get ff2 (n - 1 + 40)) else num_zero).
  assert (Hl1 : len ff1 = 120) by (subst ff1; by rewrite len_put).
  assert (Hl2 : len ff2 = 120) by (subst ff2; by rewrite len_put).
  assert (He : get ff1 n = energy frame n).
  { subst ff1. rewrite get_put_eq by lia. exact Hsum. }
  assert (Hd : fround d = delta frame n).
  { subst d. unfold delta. destruct (Z.ltb_spec 0 n) as [Hpos|Hz].
    - rewrite He. subst ff1. rewrite get_put_ne by lia.
      by rewrite (proj1 (Hdone (n - 1) ltac:(lia))).
    - apply fround_zero. }
  assert (Hd2 : get ff2 (n + 40) = delta frame n).
  { subst ff2. rewrite get_put_eq by lia. exact Hd. }
  assert (Hd' : fround d' = delta2 frame n).
  { subst d'. unfold delta2. destruct (Z.ltb_spec 0 n) as [Hpos|Hz].
    - rewrite Hd2. subst ff2 ff1. rewrite !get_put_ne by lia.
      replace (n - 1 + 40) with ((n - 1) + 40) by lia.
      by rewrite (proj1 (proj2 (Hdone (n - 1) ltac:(lia)))).
    - apply fround_zero. }
  intros j Hj. destruct (decide (j = n)) as [->|Hne].
  - repeat split.
    + rewrite get_put_ne by lia. subst ff2. rewrite get_put_ne by lia. exact He.
    + rewrite get_put_ne by lia. exact Hd2.
    + rewrite get_put_eq by lia. exact Hd'.
  - destruct (Hdone j ltac:(lia)) as (H1 & H2 & H3).
    subst ff2 ff1. rewrite !get_put_ne by lia. done.
Qed.

Lemma frameFeatures_bands frame : bands_done frame (nMfcc CONFIG) (frameFeatures frame).
Proof.
  unfold frameFeatures.
  apply (for_range_invariant (bands_done frame)).
  - done.
  - split; [by rewrite len_zeros|]. intros j Hj. lia.
  - intros i ff Hi Hff. by apply band_step_invariant.
Qed.
End Bands.

Section FeatureVector.
Context {F : Type} `{Number F}.
Implicit Types (frame v : list F).

Lemma get_app_l v1 v2 (i : Z) : 0 <= i < len v1 -> get (v1 ++ v2) i = get v1 i.
Proof.
  intros Hi. apply get_lookup; [lia|].
  rewrite lookup_app_l by (unfold len in *; lia). by apply lookup_get.
Qed.

Lemma get_app_r v1 v2 (i : Z) : len v1 <= i -> get (v1 ++ v2) i = get v2 (i - len v1).
Proof.
  intros Hi. pose proof (len_nonneg v1). unfold get, len in *.
  destruct (Z.leb_spec 0 i), (Z.leb_spec 0 (i - Z.of_nat (length v1))); try lia.
  rewrite !nth_lookup, lookup_app_r by lia. do 2 f_equal. lia.
Qed.

Lemma get_tabulate (g : Z -> F) (n j : Z) : 0 <= j < n -> get (g <$> seqZ 0 n) j = g j.
Proof.
  intros Hj. apply get_lookup; [lia|].
  rewrite list_lookup_fmap, lookup_seqZ_lt by lia. simpl.
  by rewrite Z2Nat.id by lia.
Qed.

Lemma len_tabulate (g : Z -> F) (n : Z) : 0 <= n -> len (g <$> seqZ 0 n) = n.
Proof. intros Hn. unfold len. rewrite length_fmap, length_seqZ. lia. Qed.

Lemma len_band_diff v : len (band_diff v) = len v.
Proof. unfold band_diff, len. by rewrite length_imap. Qed.

Lemma get_band_diff v (j : Z) :
  0 <= j < len v ->
  get (band_diff v) j =
    if 0 <? j then fround (num_sub (get v j) (get v (j - 1))) else num_zero.
Proof.
  intros Hj. apply get_lookup; [lia|].
  unfold band_diff. rewrite list_lookup_imap, (lookup_get v j) by done. simpl. f_equal.
  destruct (Z.ltb_spec 0 j) as [Hpos|Hz].
  - replace (Z.to_nat j) with (S (Z.to_nat (j - 1))) by lia.
    simpl. do 2 f_equal. unfold get. destruct (Z.leb_spec 0 (j - 1)); [done|lia].
  - by replace j with 0 by lia.
Qed.

(** C3 (as the code has it): for every frame and band [j], the energy
    stored at index [j] is the mean absolute amplitude of the [binSize =
    floor (len frame / nMfcc)] samples from [j * binSize] on, stored as a
    float32.  Every bin, the last one too, has exactly [binSize] samples:
    the clamp of line 191 is idle, and the samples from [nMfcc * binSize]
    on are in no bin (for a frame of 2048 samples: bins of 51 samples, the
    last 8 samples unused). *)
Theorem band_energy_mean_abs frame (j : Z) :
  0 <= j < nMfcc CONFIG ->
  let binSize := len frame / nMfcc CONFIG in
  get (frameFeatures frame) j = fround (mean_abs (bin frame j)) /\
  bin frame j = take (Z.to_nat binSize) (drop (Z.to_nat (j * binSize)) frame) /\
  len (bin frame j) = binSize /\
  Z.min (j * binSize + binSize) (len frame) = j * binSize + binSize /\
  (len frame = fftSize CONFIG -> binSize = 51 /\ nMfcc CONFIG * binSize = len frame - 8).
Proof.
  intros Hj. cbv zeta. destruct (bin_inside frame j Hj) as (Hw & Hs & He).
  split; [|split; [|split; [|split]]].
  - destruct (frameFeatures_bands frame) as [_ Hb].
    apply (proj1 (Hb j Hj)).
  - unfold bin. cbv zeta. rewrite slice_inside by lia. do 2 f_equal. lia.
  - by apply len_bin.
  - lia.
  - intros Hframe. by rewrite Hframe.
Qed.

(** C4: the feature vector of a frame is the [nMfcc] energies, then
    their band-to-band differences, then the band-to-band differences of
    those; a difference is zero at band 0 and is the entry minus the entry
    of the band before otherwise (within the frame, not across frames). *)
Theorem feature_vector_layout frame :
  let energies := energy frame <$> seqZ 0 (nMfcc CONFIG) in
  frameFeatures frame = energies ++ band_diff energies ++ band_diff (band_diff energies) /\
  len energies = nMfcc CONFIG /\
  (forall v (j : Z), 0 <= j < len v ->
     get (band_diff v) j =
       if 0 <? j then fround (num_sub (get v j) (get v (j - 1))) else num_zero).
Proof.
  cbv zeta. split; [|split; [by apply len_tabulate|apply get_band_diff]].
  destruct (frameFeatures_bands frame) as [Hlen Hb].
  set (E := energy frame <$> seqZ 0 (nMfcc CONFIG)).
  assert (HE : len E = 40) by (by apply len_tabulate).
  assert (HgE : forall j, 0 <= j < 40 -> get E j = energy frame j).
  { intros j Hj. subst E. by rewrite get_tabulate. }
  assert (HgD : forall j, 0 <= j < 40 -> get (band_diff E) j = delta frame j).
  { intros j Hj. rewrite get_band_diff by lia. unfold delta.
    destruct (Z.ltb_spec 0 j); [|done]. by rewrite !HgE by lia. }
  assert (HgD2 : forall j, 0 <= j < 40 -> get (band_diff (band_diff E)) j = delta2 frame j).
  { intros j Hj. rewrite get_band_diff by (rewrite len_band_diff; lia). unfold delta2.
    destruct (Z.ltb_spec 0 j); [|done]. by rewrite !HgD by lia. }
  change (nMfcc CONFIG) with 40 in *. change (nFeatures CONFIG) with 120 in *.
  apply array_eq.
  - rewrite !len_app, !len_band_diff. lia.
  - rewrite Hlen. intros i Hi.
    destruct (Z.lt_ge_cases i 40) as [H1|H1].
    + rewrite get_app_l by lia. rewrite HgE by lia. apply (Hb i). lia.
    + rewrite get_app_r by lia. rewrite HE.
      destruct (Z.lt_ge_cases i 80) as [H2|H2].
      * rewrite get_app_l by (rewrite len_band_diff; lia).
        rewrite HgD by lia. destruct (Hb (i - 40) ltac:(lia)) as (_ & Hd & _).
        by replace (i - 40 + 40) with i in Hd by lia.
      * rewrite get_app_r by (rewrite len_band_diff; lia).
        rewrite len_band_diff, HE. rewrite HgD2 by lia.
        destruct (Hb (i - 40 - 40) ltac:(lia)) as (_ & _ & Hd).
        by replace (i - 40 - 40 + 2 * 40) with i in Hd by lia.
Qed.
End FeatureVector.

(** ** Standardisation *)

Section Reads.
Context {F : Type} `{Number F} `{Sqrt F}.
Implicit Types (x : list (list F)) (col mean : list F) (c t : Z).

Lemma get_imap (f : nat -> F -> F) (row : list F) c :
  0 <= c < len row -> get (imap f row) c = f (Z.to_nat c) (get row c).
Proof.
  intros Hc. apply get_lookup; [lia|].
  by rewrite list_lookup_imap, (lookup_get row c) by done.
Qed.

Lemma get_replicate (n : nat) (v : F) c :
  0 <= c < Z.of_nat n -> get (replicate n v) c = v.
Proof.
  intros Hc. apply get_lookup; [lia|]. apply lookup_replicate_2. lia.
Qed.

Lemma get_mean_axis1 x c :
  0 <= c < len (hd [] x) ->
  get (mean_axis1 x) c = mean_column (fround (num_of_Z (len x))) (column x c).
Proof. intros Hc. unfold mean_axis1, columns. by rewrite get_tabulate. Qed.

Lemma len_mean_axis1 x : len (mean_axis1 x) = len (hd [] x).
Proof.
  unfold mean_axis1, columns. rewrite len_tabulate; [done|apply len_nonneg].
Qed.

Lemma column_devSquared x mean c :
  Forall (fun row => 0 <= c < len row) x ->
  column (devSquared x mean) c =
    (fun v => square (deviation (get mean c) v)) <$> column x c.
Proof.
  intros Hx. unfold column, devSquared.
  rewrite <- !list_fmap_compose. apply Forall_fmap_ext.
  eapply Forall_impl; [exact Hx|]. intros row Hc. simpl in *.
  rewrite get_imap by done. by rewrite Z2Nat.id by lia.
Qed.

Lemma hd_devSquared x mean : len (hd [] (devSquared x mean)) = len (hd [] x).
Proof. destruct x as [|row x]; [done|]. simpl. unfold len. by rewrite length_imap. Qed.

Lemma len_devSquared x mean : len (devSquared x mean) = len x.
Proof. unfold devSquared, len. by rewrite length_fmap. Qed.

Lemma rectangular_rows x (n : Z) :
  x <> [] -> Forall (fun row => len row = n) x -> rectangular x /\ len (hd [] x) = n.
Proof.
  intros Hx Hrows. destruct x as [|row x]; [done|].
  pose proof (Forall_inv Hrows) as Hrow. simpl in *. split; [|done].
  unfold rectangular. simpl. eapply Forall_impl; [exact Hrows|]. intros r Hr. simpl in *. lia.
Qed.

Lemma get_variance_axis1 x c :
  rectangular x -> 0 <= c < len (hd [] x) ->
  get (variance_axis1 x) c = variance_column (fround (num_of_Z (len x))) (column x c).
Proof.
  intros Hrect Hc. unfold variance_axis1.
  rewrite get_mean_axis1 by (by rewrite hd_devSquared).
  rewrite len_devSquared, column_devSquared.
  - by rewrite get_mean_axis1 by done.
  - eapply Forall_impl; [exact Hrect|]. intros row Hrow. simpl in *. lia.
Qed.

Lemma get_std_axis1 x c :
  rectangular x -> 0 <= c < len (hd [] x) ->
  get (std_axis1 x) c = std_column (fround (num_of_Z (len x))) (column x c).
Proof.
  intros Hrect Hc. unfold std_axis1, std_column.
  rewrite <- get_variance_axis1 by done.
  apply get_lookup; [lia|]. rewrite list_lookup_fmap.
  rewrite (lookup_get (variance_axis1 x) c); [done|].
  unfold variance_axis1. by rewrite len_mean_axis1, hd_devSquared.
Qed.

(** The columns of the result are the columns of the tensor, each
    standardised by itself. *)
Lemma column_normalize_with (eps : F) x c :
  rectangular x -> 0 <= c < len (hd [] x) ->
  column (normalize_with eps x) c =
    normalize_column eps (fround (num_of_Z (len x))) (column x c).
Proof.
  intros Hrect Hc. unfold normalize_with, normalize_column, column, divisor, deviation.
  cbv zeta. rewrite <- !list_fmap_compose. apply Forall_fmap_ext.
  eapply Forall_impl; [exact Hrect|]. intros row Hrow. simpl in *.
  rewrite get_imap by lia. rewrite Z2Nat.id by lia.
  by rewrite get_mean_axis1, get_std_axis1 by done.
Qed.

Lemma get_column x c t :
  0 <= t < len x -> get (column x c) t = get (nth (Z.to_nat t) x []) c.
Proof.
  intros Ht. apply get_lookup; [lia|]. unfold column. rewrite list_lookup_fmap.
  destruct (nth_lookup_or_length x (Z.to_nat t) []) as [Hn|Hn]; [by rewrite Hn|].
  unfold len in Ht. lia.
Qed.
End Reads.

(** A column of zeros, in any arithmetic in which the operations on zero
    are exact. *)
Section ZeroColumn.
Context {F : Type} `{Number F} `{Sqrt F}.
Variables (T eps : F).
Hypothesis zero_div : fround (num_div num_zero T) = num_zero.
Hypothesis zero_add : num_add num_zero num_zero = num_zero.
Hypothesis zero_sub : fround (num_sub num_zero num_zero) = num_zero.
Hypothesis zero_mul : fround (num_mul num_zero num_zero) = num_zero.
Hypothesis zero_sqrt : fround (num_sqrt num_zero) = num_zero.

Lemma sum_zeros (n : nat) : sum (replicate n num_zero) = num_zero.
Proof.
  unfold sum. induction n as [|n IH]; [done|]. simpl. by rewrite zero_add.
Qed.

Lemma mean_column_zeros (n : nat) : mean_column T (replicate n num_zero) = num_zero.
Proof.
  unfold mean_column. rewrite fmap_replicate, zero_div, sum_zeros. apply fround_zero.
Qed.

Lemma variance_column_zeros (n : nat) : variance_column T (replicate n num_zero) = num_zero.
Proof.
  unfold variance_column, square, deviation.
  rewrite mean_column_zeros, fmap_replicate, zero_sub, zero_mul. apply mean_column_zeros.
Qed.

Lemma std_column_zeros (n : nat) : std_column T (replicate n num_zero) = num_zero.
Proof. unfold std_column. by rewrite variance_column_zeros. Qed.

Lemma normalize_column_zeros (n : nat) :
  normalize_column eps T (replicate n num_zero) =
    replicate n (fround (num_div num_zero (fround (num_add num_zero eps)))).
Proof.
  unfold normalize_column, divisor, deviation.
  by rewrite mean_column_zeros, std_column_zeros, fmap_replicate, zero_sub.
Qed.
End ZeroColumn.

Section Columns.
Context {F : Type} `{Number F}.

Lemma column_replicate (x : list (list F)) (c : Z) (v : F) :
  Forall (fun row => get row c = v) x <-> column x c = replicate (length x) v.
Proof.
  unfold column. split.
  - intros Hx. induction Hx as [|row x Hrow Hx IH]; [done|].
    rewrite fmap_cons, Hrow, IH. done.
  - intros Heq. induction x as [|row x IH]; [done|].
    rewrite fmap_cons in Heq. injection Heq as Hrow Hx. constructor; [done|by apply IH].
Qed.
End Columns.

(** *** Constant columns, in the arithmetic of the program *)

Section ConstantColumn.
Implicit Types (channelData : list spec_float) (c : Z).

(** The operations on zero are exact in floating point. *)
Lemma float_zero_div : fround (num_div num_zero T94) = num_zero.
Proof. reflexivity. Qed.

Lemma float_zero_add : @num_add spec_float _ num_zero num_zero = num_zero.
Proof. reflexivity. Qed.

Lemma float_zero_sub : @fround spec_float _ (num_sub num_zero num_zero) = num_zero.
Proof. reflexivity. Qed.

Lemma float_zero_mul : @fround spec_float _ (num_mul num_zero num_zero) = num_zero.
Proof. reflexivity. Qed.

Lemma float_zero_sqrt : @fround spec_float _ (num_sqrt num_zero) = num_zero.
Proof. reflexivity. Qed.

Lemma float_mean_zeros (n : nat) : mean_column T94 (replicate n num_zero) = num_zero.
Proof. exact (mean_column_zeros T94 float_zero_div float_zero_add n). Qed.

Lemma float_std_zeros (n : nat) : std_column T94 (replicate n num_zero) = num_zero.
Proof.
  exact (std_column_zeros T94 float_zero_div float_zero_add float_zero_sub
           float_zero_mul float_zero_sqrt n).
Qed.

(** The feature sequence is a tensor of 94 rows and 120 columns. *)
Lemma features_tensor {F} `{Number F} (channelData : list F) :
  len (features channelData) = 94 /\ rectangular (features channelData) /\
  len (hd [] (features channelData)) = 120.
Proof.
  pose proof (len_fit (natural_features (audioBufferToFloat32 channelData))) as Hlen.
  pose proof (fit_rows _ (natural_features_rows (audioBufferToFloat32 channelData))) as Hrows.
  fold (features channelData) in Hlen, Hrows. split; [exact Hlen|].
  apply rectangular_rows; [|exact Hrows].
  intros Hnil. by rewrite Hnil in Hlen.
Qed.

(** C6: in a feature sequence that [extractMFCC] builds, a column that is
    constant is a column of zeros, since the last four rows are the padding.
    Its mean and its standard deviation are computed as 0, the divisor
    [std + 1e-8] is the float32 nearest to 1e-8 (11258999 * 2^-50), not
    zero, and every entry of the standardised column is [0 / 1e-8 = 0]:
    neither [NaN] nor an infinity. *)
Theorem constant_column_normalizes_to_zero channelData c (k : spec_float) :
  0 <= c < nFeatures CONFIG ->
  Forall (fun row => get row c = k) (features channelData) ->
  let x := features channelData in
  let mean := get (mean_axis1 x) c in
  let std := get (std_axis1 x) c in
  let den := fround (num_add std (fround epsilon)) in
  k = S754_zero false /\
  mean = S754_zero false /\
  std = S754_zero false /\
  den = S754_finite false 11258999 (-50) /\
  column (extractMFCC channelData) c =
    (fun v => fround (num_div (fround (num_sub v mean)) den)) <$> column x c /\
  Forall (fun row => get row c = S754_zero false) (extractMFCC channelData).
Proof.
  intros Hc Hconst. cbv zeta. change (nFeatures CONFIG) with 120 in Hc.
  destruct (features_tensor channelData) as (Hlen & Hrect & Hhd).
  assert (Hk : k = S754_zero false).
  { rewrite features_natural in Hconst. apply Forall_app in Hconst as [_ Hpad].
    apply Forall_inv in Hpad. by rewrite get_replicate in Hpad by lia. }
  subst k. split; [done|].
  assert (Hcol : column (features channelData) c = replicate 94 num_zero).
  { apply (column_replicate (features channelData) c) in Hconst.
    rewrite Hconst. f_equal. unfold len in Hlen. lia. }
  assert (HT : fround (num_of_Z (len (features channelData))) = T94) by (by rewrite Hlen).
  assert (Hmean : get (mean_axis1 (features channelData)) c = num_zero).
  { rewrite get_mean_axis1, Hcol, HT by lia. apply float_mean_zeros. }
  assert (Hstd : get (std_axis1 (features channelData)) c = num_zero).
  { rewrite get_std_axis1, Hcol, HT by (done || lia). apply float_std_zeros. }
  rewrite Hmean, Hstd. split; [reflexivity|]. split; [reflexivity|]. split; [reflexivity|].
  assert (Hnorm : column (extractMFCC channelData) c =
    (fun v => fround (num_div (fround (num_sub v num_zero))
                              (fround (num_add num_zero (fround epsilon)))))
      <$> column (features channelData) c).
  { unfold extractMFCC, normalize. rewrite column_normalize_with by (done || lia).
    unfold normalize_column, divisor, deviation.
    rewrite <- get_mean_axis1, <- get_std_axis1 by (done || lia).
    rewrite Hmean, Hstd. reflexivity. }
  split; [exact Hnorm|].
  apply column_replicate. rewrite Hnorm, Hcol, fmap_replicate. f_equal.
  unfold extractMFCC, normalize, normalize_with. cbv zeta. rewrite length_fmap.
  unfold len in Hlen. lia.
Qed.
End ConstantColumn.

Lemma quiet_features_eq : features quiet_recording = quiet_features.
Proof. vm_cast_no_check (@eq_refl _ quiet_features). Qed.

(** The column of the first difference of band 0 is constant in every
    feature sequence: the loop stores 0 there. *)
Lemma constant_column_example :
  Forall (fun row => get row 40 = S754_zero false) (extractMFCC quiet_recording).
Proof.
  refine (proj2 (proj2 (proj2 (proj2 (proj2
    (constant_column_normalizes_to_zero quiet_recording 40 (S754_zero false) _ _)))))).
  - change (nFeatures CONFIG) with 120. lia.
  - rewrite quiet_features_eq. apply (bool_decide_eq_true_1 _). vm_compute. reflexivity.
Defined.

(** The padding rows matter.  A tensor with a column of ones, which
    [extractMFCC] never builds, is not standardised to zeros: the mean of 94
    ones is computed as [1 - 2^-24], since every quotient [1 / 94] is rounded
    before the sum, and the entries come out as 0.8563315. *)
Example ones_are_not_zeros :
  get (mean_axis1 ones_tensor) 0 = S754_finite false 16777215 (-24) /\
  get (std_axis1 ones_tensor) 0 = S754_finite false 16777215 (-48) /\
  Forall (fun row => get row 0 = S754_finite false 14366859 (-24)) (normalize ones_tensor).
Proof.
  split; [by vm_compute|]. split; [by vm_compute|].
  apply (bool_decide_eq_true_1 _). by vm_compute.
Qed.

(** *** Scaling by a power of two

    The operations of [SpecFloat] commute with a move of the exponent,
    where the roundings see no underflow and no overflow. *)

Section RangeLemmas.
Variables prec emax : Z.

Lemma fexp_shift (d k : Z) :
  in_range prec emax d k = true -> fexp prec emax (d + k) = fexp prec emax d + k.
Proof.
  unfold in_range, fexp. intros Hr. apply andb_true_iff in Hr as [H1 H2].
  apply Z.leb_le in H1, H2. lia.
Qed.

Lemma shr_fexp_shift (m e : Z) (l : location) (k : Z) :
  in_range prec emax (Zdigits2 m + e) k = true ->
  shr_fexp prec emax m (e + k) l =
    (fst (shr_fexp prec emax m e l), snd (shr_fexp prec emax m e l) + k).
Proof.
  intros Hr. unfold shr_fexp.
  replace (Zdigits2 m + (e + k)) with (Zdigits2 m + e + k) by lia.
  rewrite (fexp_shift _ _ Hr).
  replace (fexp prec emax (Zdigits2 m + e) + k - (e + k))
    with (fexp prec emax (Zdigits2 m + e) - e) by lia.
  unfold shr. destruct (fexp prec emax (Zdigits2 m + e) - e); simpl; f_equal; lia.
Qed.

Lemma round_aux_shift (s : bool) (m e : Z) (l : location) (k : Z) :
  round_aux_ok prec emax m e l k = true ->
  binary_round_aux prec emax s m (e + k) l = scl k (binary_round_aux prec emax s m e l).
Proof.
  unfold round_aux_ok, binary_round_aux. intros Hok.
  apply andb_true_iff in Hok as [Hr1 Hok].
  rewrite (shr_fexp_shift _ _ _ _ Hr1).
  destruct (shr_fexp prec emax m e l) as [mrs e1]. cbn [fst snd] in *.
  apply andb_true_iff in Hok as [Hr2 Hok].
  rewrite (shr_fexp_shift _ _ _ _ Hr2).
  destruct (shr_fexp prec emax _ e1 loc_Exact) as [mrs2 e2]. cbn [fst snd] in *.
  apply andb_true_iff in Hok as [H1 H2].
  destruct (shr_m mrs2); [done| |done].
  by rewrite H1, H2.
Qed.

Lemma shl_align_shift (m : positive) (e e' k : Z) :
  shl_align m (e + k) (e' + k) = (fst (shl_align m e e'), snd (shl_align m e e') + k).
Proof.
  unfold shl_align. replace (e' + k - (e + k)) with (e' - e) by lia.
  by destruct (e' - e).
Qed.

Lemma round_shift (s : bool) (m : positive) (e k : Z) :
  round_ok prec emax m e k = true ->
  binary_round prec emax s m (e + k) = scl k (binary_round prec emax s m e).
Proof.
  unfold round_ok, binary_round. intros Hok.
  apply andb_true_iff in Hok as [Hr Hok].
  replace (Z.pos (digits2_pos m) + (e + k)) with (Z.pos (digits2_pos m) + e + k) by lia.
  rewrite (fexp_shift _ _ Hr), shl_align_shift.
  destruct (shl_align m e _) as [mz ez]. cbn [fst snd].
  by apply round_aux_shift.
Qed.

Lemma binary_normalize_shift (m e k : Z) (szero : bool) :
  normalize_ok prec emax m e k = true ->
  binary_normalize prec emax m (e + k) szero = scl k (binary_normalize prec emax m e szero).
Proof.
  unfold normalize_ok, binary_normalize. destruct m; [done| |]; apply round_shift.
Qed.

Lemma SFadd_scl (x y : spec_float) (k : Z) :
  add_ok prec emax x y k = true ->
  SFadd prec emax (scl k x) (scl k y) = scl k (SFadd prec emax x y).
Proof.
  destruct x as [sx|sx| |sx mx ex], y as [sy|sy| |sy my ey]; try reflexivity.
  - by destruct sx, sy.
  - by destruct sx, sy.
  - unfold add_ok, SFadd, scl. cbv zeta.
    rewrite Z.add_min_distr_r, !shl_align_shift. cbn [fst]. apply binary_normalize_shift.
Qed.

Lemma SFsub_scl (x y : spec_float) (k : Z) :
  sub_ok prec emax x y k = true ->
  SFsub prec emax (scl k x) (scl k y) = scl k (SFsub prec emax x y).
Proof.
  destruct x as [sx|sx| |sx mx ex], y as [sy|sy| |sy my ey]; try reflexivity.
  - by destruct sx, sy.
  - by destruct sx, sy.
  - unfold sub_ok, SFsub, scl. cbv zeta.
    rewrite Z.add_min_distr_r, !shl_align_shift. cbn [fst]. apply binary_normalize_shift.
Qed.

Lemma SFmul_scl (x y : spec_float) (k1 k2 : Z) :
  mul_ok prec emax x y (k1 + k2) = true ->
  SFmul prec emax (scl k1 x) (scl k2 y) = scl (k1 + k2) (SFmul prec emax x y).
Proof.
  destruct x as [sx|sx| |sx mx ex], y as [sy|sy| |sy my ey]; try reflexivity.
  unfold mul_ok, SFmul, scl. intros Hok.
  replace (ex + k1 + (ey + k2)) with (ex + ey + (k1 + k2)) by lia.
  by apply round_aux_shift.
Qed.

Lemma div_core_shift (m1 e1 m2 e2 k : Z) :
  in_range prec emax (Zdigits2 m1 + e1 - (Zdigits2 m2 + e2)) k = true ->
  SFdiv_core_binary prec emax m1 (e1 + k) m2 e2 =
    (let '(q, e', l) := SFdiv_core_binary prec emax m1 e1 m2 e2 in (q, e' + k, l)).
Proof.
  intros Hr. unfold SFdiv_core_binary. cbv zeta.
  replace (Zdigits2 m1 + (e1 + k) - (Zdigits2 m2 + e2))
    with (Zdigits2 m1 + e1 - (Zdigits2 m2 + e2) + k) by lia.
  rewrite (fexp_shift _ _ Hr).
  replace (e1 + k - e2) with (e1 - e2 + k) by lia.
  rewrite Z.add_min_distr_r.
  set (e' := Z.min _ _).
  replace (e1 - e2 + k - (e' + k)) with (e1 - e2 - e') by lia.
  by destruct (Z.div_eucl _ m2).
Qed.

Lemma div_core_shift_both (m1 e1 m2 e2 k : Z) :
  SFdiv_core_binary prec emax m1 (e1 + k) m2 (e2 + k) =
  SFdiv_core_binary prec emax m1 e1 m2 e2.
Proof.
  unfold SFdiv_core_binary. cbv zeta.
  replace (Zdigits2 m1 + (e1 + k) - (Zdigits2 m2 + (e2 + k)))
    with (Zdigits2 m1 + e1 - (Zdigits2 m2 + e2)) by lia.
  replace (e1 + k - (e2 + k)) with (e1 - e2) by lia. done.
Qed.

Lemma SFdiv_scl (x y : spec_float) (k : Z) :
  div_ok prec emax x y k = true ->
  SFdiv prec emax (scl k x) y = scl k (SFdiv prec emax x y).
Proof.
  destruct x as [sx|sx| |sx mx ex], y as [sy|sy| |sy my ey]; try reflexivity.
  unfold div_ok, SFdiv, scl. intros Hok.
  apply andb_true_iff in Hok as [Hr Hok].
  rewrite (div_core_shift _ _ _ _ _ Hr).
  destruct (SFdiv_core_binary prec emax _ ex _ ey) as [[mz ez] lz].
  by apply round_aux_shift.
Qed.

Lemma SFdiv_scl_both (x y : spec_float) (k : Z) :
  SFdiv prec emax (scl k x) (scl k y) = SFdiv prec emax x y.
Proof.
  destruct x as [sx|sx| |sx mx ex], y as [sy|sy| |sy my ey]; try reflexivity.
  unfold SFdiv, scl. by rewrite div_core_shift_both.
Qed.

Lemma sqrt_core_shift (m e k : Z) :
  in_range prec emax (Z.div2 (Zdigits2 m + e + 1)) k = true ->
  SFsqrt_core_binary prec emax m (e + 2 * k) =
    (let '(q, e', l) := SFsqrt_core_binary prec emax m e in (q, e' + k, l)).
Proof.
  intros Hr. unfold SFsqrt_core_binary. cbv zeta.
  assert (Hdiv2 : forall z, Z.div2 (z + 2 * k) = Z.div2 z + k).
  { intros z. rewrite !Z.div2_div. rewrite (Z.mul_comm 2 k). apply Z.div_add. lia. }
  replace (Zdigits2 m + (e + 2 * k) + 1) with (Zdigits2 m + e + 1 + 2 * k) by lia.
  rewrite !Hdiv2, (fexp_shift _ _ Hr), Z.add_min_distr_r.
  set (e' := Z.min _ _).
  replace (e + 2 * k - 2 * (e' + k)) with (e - 2 * e') by lia.
  by destruct (Z.sqrtrem _).
Qed.

Lemma SFsqrt_scl (x : spec_float) (k : Z) :
  sqrt_ok prec emax x k = true ->
  SFsqrt prec emax (scl (2 * k) x) = scl k (SFsqrt prec emax x).
Proof.
  destruct x as [sx|sx| |sx mx ex]; try reflexivity; [by destruct sx|].
  destruct sx; [done|].
  unfold sqrt_ok, SFsqrt, scl. intros Hok.
  apply andb_true_iff in Hok as [Hr Hok].
  rewrite (sqrt_core_shift _ _ _ Hr).
  destruct (SFsqrt_core_binary prec emax _ ex) as [[mz ez] lz].
  by apply round_aux_shift.
Qed.

Lemma SFldexp_scl (x : spec_float) (k : Z) :
  ldexp_ok prec emax x k = true ->
  SFldexp prec emax (scl k x) 0 = scl k (SFldexp prec emax x 0).
Proof.
  destruct x as [sx|sx| |sx mx ex]; try reflexivity.
  unfold ldexp_ok, SFldexp, scl. intros Hok.
  replace (ex + k + 0) with (ex + 0 + k) by lia. by apply round_shift.
Qed.
End RangeLemmas.

Section ExactShift.
Variables prec emax : Z.

Lemma iter_pos_iter {A} (f : A -> A) (p : positive) (a : A) :
  SpecFloat.iter_pos f p a = Pos.iter f a p.
Proof.
  revert a. induction p as [p IH|p IH|]; intros a; simpl; [|by rewrite !IH|done].
  rewrite !IH. by rewrite <- !Pos.iter_swap.
Qed.

Lemma digits_iter_xO (m p : positive) :
  digits2_pos (Pos.iter xO m p) = (digits2_pos m + p)%positive.
Proof.
  induction p as [|p IH] using Pos.peano_ind.
  - simpl. lia.
  - rewrite Pos.iter_succ. simpl. rewrite IH. lia.
Qed.

Lemma shr_1_iter (m p : positive) :
  Pos.iter shr_1 (Build_shr_record (Zpos (Pos.iter xO m p)) false false) p =
  Build_shr_record (Zpos m) false false.
Proof.
  induction p as [|p IH] using Pos.peano_ind.
  - reflexivity.
  - rewrite Pos.iter_succ_r, Pos.iter_succ. exact IH.
Qed.

(** A number that is in the format after [p] zero bits are dropped
    rounds to itself. *)
Lemma round_aux_exact (s : bool) (m p : positive) (e : Z) :
  fexp prec emax (Zpos (digits2_pos m) + (e + Zpos p)) = e + Zpos p ->
  e + Zpos p <= emax - prec ->
  binary_round_aux prec emax s (Zpos (Pos.iter xO m p)) e loc_Exact =
    S754_finite s m (e + Zpos p).
Proof.
  intros Hcanon Hmax. unfold binary_round_aux, shr_fexp. cbn [Zdigits2 shr_record_of_loc].
  rewrite digits_iter_xO.
  replace (Z.pos (digits2_pos m + p) + e) with (Z.pos (digits2_pos m) + (e + Z.pos p)) by lia.
  rewrite Hcanon. replace (e + Z.pos p - e) with (Z.pos p) by lia.
  unfold shr at 1. rewrite iter_pos_iter, shr_1_iter.
  cbn [shr_m loc_of_shr_record round_nearest_even Zdigits2 shr_record_of_loc].
  rewrite Hcanon, Z.sub_diag. cbn [shr shr_m].
  by rewrite (proj2 (Z.leb_le _ _) Hmax).
Qed.

Lemma round_aux_canonical (s : bool) (m : positive) (e : Z) :
  fexp prec emax (Zpos (digits2_pos m) + e) = e ->
  e <= emax - prec ->
  binary_round_aux prec emax s (Zpos m) e loc_Exact = S754_finite s m e.
Proof.
  intros Hcanon Hmax. unfold binary_round_aux, shr_fexp. cbn [Zdigits2 shr_record_of_loc].
  rewrite Hcanon, Z.sub_diag.
  cbn [shr shr_m loc_of_shr_record round_nearest_even Zdigits2 shr_record_of_loc].
  rewrite Hcanon, Z.sub_diag. cbn [shr shr_m].
  by rewrite (proj2 (Z.leb_le _ _) Hmax).
Qed.
End ExactShift.

(** The product of a normal float32 number and [2^k] is exact when it is
    a normal float32 number too. *)
Lemma product_scl (k : Z) (v : spec_float) :
  scalable k v = true -> fround (num_mul (pow2 k) v) = scl k v.
Proof.
  destruct v as [s|s| |s m e]; try reflexivity.
  unfold scalable. intros Hok.
  repeat (apply andb_true_iff in Hok as [Hok ?]).
  apply Z.eqb_eq in Hok.
  repeat match goal with H : (_ <=? _) = true |- _ => apply Z.leb_le in H end.
  unfold float32_prec in Hok.
  change (num_mul (pow2 k) (S754_finite s m e))
    with (binary_round_aux float64_prec float64_emax s
            (Zpos (Pos.iter xO (Pos.iter xO m 29) 23)) (k - 52 + e) loc_Exact).
  assert (Hd : Z.pos (digits2_pos (Pos.iter xO m 29)) = 53) by (rewrite digits_iter_xO; lia).
  rewrite round_aux_exact; unfold float64_prec, float64_emax, fexp, emin; [|lia|lia].
  change (fround (S754_finite s (Pos.iter xO m 29) (k - 52 + e + 23)))
    with (binary_round float32_prec float32_emax s (Pos.iter xO m 29) (k - 52 + e + 23 + 0)).
  unfold binary_round, float32_prec, float32_emax. rewrite Hd.
  unfold shl_align.
  replace (fexp 24 128 (53 + (k - 52 + e + 23 + 0)) - (k - 52 + e + 23 + 0)) with 29
    by (unfold fexp, emin; lia).
  rewrite round_aux_exact; unfold fexp, emin; [|lia|lia].
  unfold scl. f_equal. lia.
Qed.

Section ScaledColumn.
Implicit Types (v d T eps mean : spec_float) (col l : list spec_float) (k : Z).

Lemma fround_scl v k : store_ok v k = true -> fround (scl k v) = scl k (fround v).
Proof. apply SFldexp_scl. Qed.

Lemma quotient_scl T k v :
  quotient_ok T k v = true ->
  fround (num_div (scl k v) T) = scl k (fround (num_div v T)).
Proof.
  unfold quotient_ok. intros Hok. apply andb_true_iff in Hok as [Hdiv Hstore].
  change (num_div (scl k v) T) with (SFdiv float64_prec float64_emax (scl k v) T).
  rewrite (SFdiv_scl _ _ _ _ _ Hdiv). by apply fround_scl.
Qed.

Lemma deviation_scl mean k v :
  deviation_ok mean k v = true ->
  deviation (scl k mean) (scl k v) = scl k (deviation mean v).
Proof.
  unfold deviation_ok, deviation. intros Hok. apply andb_true_iff in Hok as [Hsub Hstore].
  change (num_sub (scl k v) (scl k mean))
    with (SFsub float64_prec float64_emax (scl k v) (scl k mean)).
  rewrite (SFsub_scl _ _ _ _ _ Hsub). by apply fround_scl.
Qed.

Lemma square_scl k d :
  square_ok k d = true -> square (scl k d) = scl (k + k) (square d).
Proof.
  unfold square_ok, square. intros Hok. apply andb_true_iff in Hok as [Hmul Hstore].
  change (num_mul (scl k d) (scl k d))
    with (SFmul float64_prec float64_emax (scl k d) (scl k d)).
  rewrite (SFmul_scl _ _ _ _ _ _ Hmul). by apply fround_scl.
Qed.

Lemma root_scl k v :
  root_ok k v = true -> fround (num_sqrt (scl (2 * k) v)) = scl k (fround (num_sqrt v)).
Proof.
  unfold root_ok. intros Hok. apply andb_true_iff in Hok as [Hsqrt Hstore].
  change (num_sqrt (scl (2 * k) v)) with (SFsqrt float64_prec float64_emax (scl (2 * k) v)).
  rewrite (SFsqrt_scl _ _ _ _ Hsqrt). by apply fround_scl.
Qed.

Lemma total_scl k (x y : spec_float) :
  total_ok k x y = true ->
  fround (num_add (scl k x) (scl k y)) = scl k (fround (num_add x y)).
Proof.
  unfold total_ok. intros Hok. apply andb_true_iff in Hok as [Hadd Hstore].
  change (num_add (scl k x) (scl k y))
    with (SFadd float64_prec float64_emax (scl k x) (scl k y)).
  rewrite (SFadd_scl _ _ _ _ _ Hadd). by apply fround_scl.
Qed.

Lemma quotient_scl_both (d den : spec_float) k :
  fround (num_div (scl k d) (scl k den)) = fround (num_div d den).
Proof.
  change (num_div (scl k d) (scl k den))
    with (SFdiv float64_prec float64_emax (scl k d) (scl k den)).
  by rewrite SFdiv_scl_both.
Qed.

Lemma sum_scl k (acc : spec_float) l :
  sum_ok k acc l = true ->
  foldl num_add (scl k acc) (scl k <$> l) = scl k (foldl num_add acc l).
Proof.
  revert acc. induction l as [|v l IH]; intros acc Hok; [done|].
  cbn [sum_ok] in Hok. apply andb_true_iff in Hok as [Hadd Hok].
  rewrite fmap_cons. cbn [foldl].
  change (num_add (scl k acc) (scl k v))
    with (SFadd float64_prec float64_emax (scl k acc) (scl k v)).
  rewrite (SFadd_scl _ _ _ _ _ Hadd). by apply IH.
Qed.

Lemma forallb_fmap_ext {A B} (P : A -> bool) (f g : A -> B) (l : list A) :
  forallb P l = true -> (forall a, P a = true -> f a = g a) -> f <$> l = g <$> l.
Proof.
  intros Hl Hfg. induction l as [|a l IH]; [done|].
  cbn [forallb] in Hl. apply andb_true_iff in Hl as [Ha Hl].
  rewrite !fmap_cons, (Hfg a Ha), (IH Hl). done.
Qed.

Lemma mean_column_scl T k col :
  mean_ok T k col = true ->
  mean_column T (scl k <$> col) = scl k (mean_column T col).
Proof.
  unfold mean_ok, mean_column. intros Hok.
  apply andb_true_iff in Hok as [Hq Hok]. apply andb_true_iff in Hok as [Hsum Hstore].
  rewrite <- list_fmap_compose.
  rewrite (forallb_fmap_ext _ ((fun v => fround (num_div v T)) ∘ scl k)
             (scl k ∘ (fun v => fround (num_div v T))) col Hq)
    by (intros v Hv; by apply quotient_scl).
  rewrite list_fmap_compose. unfold sum in *.
  change (@num_zero spec_float _) with (scl k num_zero) at 1.
  rewrite (sum_scl _ _ _ Hsum). by apply fround_scl.
Qed.

(** Scaling a column by [2^k] scales its mean and its deviation by
    [2^k] and its variance by [2^(2k)]; with the constant of the divisor
    scaled too, the standardised column is the same. *)
Lemma column_scl eps T k col :
  column_ok eps T k col = true ->
  mean_column T (scl k <$> col) = scl k (mean_column T col) /\
  variance_column T (scl k <$> col) = scl (2 * k) (variance_column T col) /\
  std_column T (scl k <$> col) = scl k (std_column T col) /\
  divisor (scl k eps) T (scl k <$> col) = scl k (divisor eps T col) /\
  normalize_column (scl k eps) T (scl k <$> col) = normalize_column eps T col.
Proof.
  unfold column_ok. cbv zeta. intros Hok.
  apply andb_true_iff in Hok as [Hok Htotal]. apply andb_true_iff in Hok as [Hok Hroot].
  apply andb_true_iff in Hok as [Hok Hvar]. apply andb_true_iff in Hok as [Hmean Hdev].
  assert (Em := mean_column_scl _ _ _ Hmean).
  assert (Ev : variance_column T (scl k <$> col) = scl (2 * k) (variance_column T col)).
  { unfold variance_column. rewrite Em, <- list_fmap_compose.
    rewrite (forallb_fmap_ext _
               ((fun v => square (deviation (scl k (mean_column T col)) v)) ∘ scl k)
               (scl (k + k) ∘ (fun v => square (deviation (mean_column T col) v))) col Hdev).
    - rewrite list_fmap_compose. replace (2 * k) with (k + k) by lia.
      by apply mean_column_scl.
    - intros v Hv. apply andb_true_iff in Hv as [Hd Hs]. unfold compose.
      rewrite (deviation_scl _ _ _ Hd). by apply square_scl. }
  assert (Es : std_column T (scl k <$> col) = scl k (std_column T col)).
  { unfold std_column. rewrite Ev. by apply root_scl. }
  assert (Ed : divisor (scl k eps) T (scl k <$> col) = scl k (divisor eps T col)).
  { unfold divisor. rewrite Es. by apply total_scl. }
  split; [done|]. split; [done|]. split; [done|]. split; [done|].
  unfold normalize_column. rewrite Ed, Em, <- list_fmap_compose.
  apply (forallb_fmap_ext _ _ _ col Hdev). intros v Hv.
  apply andb_true_iff in Hv as [Hd _]. unfold compose.
  rewrite (deviation_scl _ _ _ Hd). apply quotient_scl_both.
Qed.
End ScaledColumn.

Section Tensors.
Context {F : Type} `{Number F}.
Implicit Types (x y : list (list F)) (row : list F) (c w : Z).

Lemma get_fmap (f : F -> F) row c :
  0 <= c < len row -> get (f <$> row) c = f (get row c).
Proof.
  intros Hc. apply get_lookup; [lia|].
  by rewrite list_lookup_fmap, (lookup_get row c) by done.
Qed.

Lemma forallb_Forall {A} (P : A -> bool) (l : list A) :
  forallb P l = true -> Forall (fun a => P a = true) l.
Proof.
  induction l as [|a l IH]; [constructor|].
  cbn [forallb]. intros Hl. apply andb_true_iff in Hl as [Ha Hl]. constructor; auto.
Qed.

(** Two tensors of the same shape with the same columns are equal. *)
Lemma tensor_ext x y w :
  len x = len y ->
  Forall (fun row => len row = w) x -> Forall (fun row => len row = w) y ->
  (forall c, 0 <= c < w -> column x c = column y c) ->
  x = y.
Proof.
  intros Hlen Hx Hy Hcol. apply list_eq. intros t.
  destruct (x !! t) as [rx|] eqn:Ex.
  - destruct (y !! t) as [ry|] eqn:Ey.
    + f_equal. pose proof (Forall_lookup_1 _ _ _ _ Hx Ex) as Hrx.
      pose proof (Forall_lookup_1 _ _ _ _ Hy Ey) as Hry. simpl in *.
      apply array_eq; [lia|]. intros c Hc.
      assert (Hl : column x c !! t = column y c !! t) by (rewrite Hcol; [done|lia]).
      unfold column in Hl. rewrite !list_lookup_fmap, Ex, Ey in Hl. by injection Hl.
    + apply lookup_lt_Some in Ex. apply lookup_ge_None in Ey. unfold len in Hlen. lia.
  - destruct (y !! t) as [ry|] eqn:Ey; [|done].
    apply lookup_lt_Some in Ey. apply lookup_ge_None in Ex. unfold len in Hlen. lia.
Qed.

Lemma len_scale (a : F) x : len (scale a x) = len x.
Proof. unfold scale, len. by rewrite length_fmap. Qed.

Lemma scale_rows (a : F) x w :
  Forall (fun row => len row = w) x -> Forall (fun row => len row = w) (scale a x).
Proof.
  intros Hx. unfold scale. apply Forall_fmap. eapply Forall_impl; [exact Hx|].
  intros row Hrow. simpl. unfold len in *. by rewrite length_fmap.
Qed.

Lemma hd_scale (a : F) x : len (hd [] (scale a x)) = len (hd [] x).
Proof. destruct x as [|row x]; [done|]. simpl. unfold len. by rewrite length_fmap. Qed.

Lemma rectangular_scale (a : F) x : rectangular x -> rectangular (scale a x).
Proof. intros Hx. unfold rectangular. rewrite hd_scale. by apply scale_rows. Qed.
End Tensors.

Section ScaledTensor.
Implicit Types (x : list (list spec_float)) (k c : Z).

Lemma column_scale k x c :
  rectangular x -> 0 <= c < len (hd [] x) ->
  forallb (forallb (scalable k)) x = true ->
  column (scale (pow2 k) x) c = scl k <$> column x c.
Proof.
  intros Hrect Hc Hprod. unfold column, scale. rewrite <- !list_fmap_compose.
  apply Forall_fmap_ext.
  apply forallb_Forall in Hprod.
  apply Forall_forall. intros row Hrow.
  pose proof (proj1 (Forall_forall _ _) Hrect row Hrow) as Hlen.
  pose proof (proj1 (Forall_forall _ _) Hprod row Hrow) as Hp.
  simpl in *. apply forallb_Forall in Hp.
  rewrite get_fmap by lia.
  assert (Hin : row !! Z.to_nat c = Some (get row c)) by (apply lookup_get; lia).
  pose proof (Forall_lookup_1 _ _ _ _ Hp Hin) as Hv. simpl in Hv.
  by apply product_scl.
Qed.

End ScaledTensor.



(** The operations of [Number_R] are those of [R]. *)
Ltac reals :=
  cbv [num_zero num_add num_sub num_mul num_div num_abs num_of_Z fround
       num_sqrt Number_R Sqrt_R] in *.

(** ** Examples on concrete inputs *)

Lemma band_energy_mean_abs_example :
  (0 <= 3 < nMfcc CONFIG) /\
  get (frameFeatures ramp_frame) 3 = fround (mean_abs (bin ramp_frame 3)) /\
  fround (mean_abs (bin ramp_frame 3)) = (87 # 200)%Q.
Proof.
  assert (Hj : 0 <= 3 < nMfcc CONFIG) by (change (nMfcc CONFIG) with 40; lia).
  split; [exact Hj|]. split.
  - exact (proj1 (band_energy_mean_abs ramp_frame 3 Hj)).
  - vm_compute. reflexivity.
Defined.

(** C3 (as it is stated) fails: frame 0 of [remainder_input] has 2048
    samples, all zero but the last.  The loop gives band 39 the energy 0: its
    bin ends at sample 2039.  A final bin running to the end of the frame
    would hold the last sample and have a non-zero mean. *)
Lemma final_bin_drops_remainder :
  let frame := frame_at (audioBufferToFloat32 remainder_input) 0 in
  features remainder_input !! 0%nat = Some (frameFeatures frame) /\
  len frame = 2048 /\
  get frame 2047 = 1%Q /\
  get (frameFeatures frame) 39 = 0%Q /\
  spec_energy frame 39 = (1 # 59)%Q /\
  get (frameFeatures frame) 39 <> spec_energy frame 39.
Proof.
  cbv zeta. split; [apply (features_lookup remainder_input 0); lia|].
  split; [by vm_compute|]. split; [by vm_compute|].
  assert (Hcode : get (frameFeatures (frame_at (audioBufferToFloat32 remainder_input) 0)) 39
                  = 0%Q) by (by vm_compute).
  assert (Hspec : spec_energy (frame_at (audioBufferToFloat32 remainder_input) 0) 39
                  = (1 # 59)%Q) by (by vm_compute).
  split; [exact Hcode|]. split; [exact Hspec|].
  rewrite Hcode, Hspec. discriminate.
Qed.

(** ** [float32ToWav] *)

Lemma byte_of_wrapped (v k n : Z) :
  0 <= k -> k + 8 <= n -> Z.shiftr (v mod 2 ^ n) k mod 256 = (v / 2 ^ k) mod 256.
Proof.
  intros Hk Hn. rewrite Z.shiftr_div_pow2 by done.
  change 256 with (2 ^ 8). rewrite <- !Z.land_ones by lia.
  rewrite <- !Z.shiftr_div_pow2 by done.
  apply Z.bits_inj'. intros i Hi.
  rewrite !Z.land_spec, !Z.shiftr_spec, Z.land_spec by done.
  destruct (Z.lt_ge_cases i 8).
  - rewrite (Z.ones_spec_low n (i + k)) by lia. by rewrite andb_true_r.
  - rewrite (Z.ones_spec_high 8 i) by lia. by rewrite !andb_false_r.
Qed.

Lemma setUint8_at (done_ : list Z) (b : Z) (rest : list Z) (off v : Z) :
  len done_ = off ->
  setUint8 (done_ ++ b :: rest) off v = (done_ ++ [v mod 256]) ++ rest.
Proof.
  intros <-. unfold setUint8. destruct (Z.leb_spec 0 (len done_)) as [_|Hneg].
  - unfold len. rewrite Nat2Z.id, insert_app_r_alt, Nat.sub_diag by done.
    simpl. by rewrite <- app_assoc.
  - pose proof (len_nonneg done_). lia.
Qed.

Lemma setUint16_at (done_ : list Z) (b0 b1 : Z) (rest : list Z) (off v : Z) :
  len done_ = off ->
  setUint16 (done_ ++ b0 :: b1 :: rest) off v = (done_ ++ le_split 2 v) ++ rest.
Proof.
  intros Hoff. unfold setUint16. cbv zeta.
  rewrite (setUint8_at done_) by done.
  rewrite setUint8_at by (rewrite len_app; unfold len in *; simpl; lia).
  rewrite (byte_of_wrapped v 8 16) by lia.
  rewrite <- (Z.shiftr_0_r (v mod 2 ^ 16)), (byte_of_wrapped v 0 16) by lia.
  rewrite Z.pow_0_r, Z.div_1_r. simpl. by rewrite <- !app_assoc.
Qed.

Lemma setUint32_at (done_ : list Z) (b0 b1 b2 b3 : Z) (rest : list Z) (off v : Z) :
  len done_ = off ->
  setUint32 (done_ ++ b0 :: b1 :: b2 :: b3 :: rest) off v = (done_ ++ le_split 4 v) ++ rest.
Proof.
  intros Hoff. unfold setUint32. cbv zeta.
  rewrite (setUint8_at done_) by done.
  do 3 rewrite setUint8_at by (rewrite !len_app; unfold len in *; simpl; lia).
  rewrite (byte_of_wrapped v 8 32), (byte_of_wrapped v 16 32), (byte_of_wrapped v 24 32) by lia.
  rewrite <- (Z.shiftr_0_r (v mod 2 ^ 32)), (byte_of_wrapped v 0 32) by lia.
  rewrite Z.pow_0_r, Z.div_1_r. simpl.
  rewrite !Z.div_div by lia. by rewrite <- !app_assoc.
Qed.

Lemma writeString_at (done_ : list Z) (b0 b1 b2 b3 : Z) (rest : list Z) (off : Z) (s : string) :
  len (charCodes s) = 4 ->
  (fun c => c mod 256) <$> charCodes s = charCodes s ->
  len done_ = off ->
  writeString (done_ ++ b0 :: b1 :: b2 :: b3 :: rest) off s = (done_ ++ charCodes s) ++ rest.
Proof.
  intros H4 Hbytes Hoff. unfold writeString, for_range. rewrite H4.
  change (seqZ 0 (4 - 0)) with [0; 1; 2; 3].
  destruct (charCodes s) as [|c0 [|c1 [|c2 [|c3 [|c4 cs]]]]];
    try (exfalso; unfold len in H4; simpl in H4; lia).
  injection Hbytes as E0 E1 E2 E3. simpl. rewrite Z.add_0_r.
  rewrite (setUint8_at done_) by done.
  do 3 rewrite setUint8_at by (rewrite !len_app; unfold len in *; simpl; lia).
  rewrite E0, E1, E2, E3. by rewrite <- !app_assoc.
Qed.

Lemma len_le_split (k : nat) (v : Z) : len (le_split k v) = Z.of_nat k.
Proof.
  unfold len. f_equal. revert v. induction k as [|k IH]; intros v; simpl; [done|].
  by rewrite IH.
Qed.

Lemma len_flat_map_pcm16 (samples : list Q) : len (flat_map pcm16 samples) = len samples * 2.
Proof.
  induction samples as [|s samples IH]; [done|].
  cbn [flat_map]. rewrite len_app. unfold pcm16 at 1. rewrite len_le_split, IH.
  unfold len. simpl. lia.
Qed.

(** Lines 133-145: the header is written over the first 44 bytes. *)
Lemma header_written (n sampleRate : Z) (tail : list Z) :
  setUint32
    (writeString
      (setUint16
        (setUint16
          (setUint32
            (setUint32
              (setUint16
                (setUint16
                  (setUint32
                    (writeString
                      (writeString
                        (setUint32
                          (writeString (replicate 44 0 ++ tail) 0 "RIFF")
                          4 (36 + n * 2))
                        8 "WAVE")
                      12 "fmt ")
                    16 16)
                  20 1)
                22 1)
              24 sampleRate)
            28 (sampleRate * 2))
          32 2)
        34 16)
      36 "data")
    40 (n * 2)
  = wav_header n sampleRate ++ tail.
Proof.
  change (replicate 44 0 ++ tail) with ([] ++ (replicate 44 0 ++ tail)).
  cbn [replicate app].
  change (0 :: 0 :: 0 :: 0 :: ?l) with ([] ++ 0 :: 0 :: 0 :: 0 :: l) at 1.
  rewrite (writeString_at _ _ _ _ _ _ 0 "RIFF") by reflexivity.
  rewrite (setUint32_at _ _ _ _ _ _ 4) by reflexivity.
  rewrite (writeString_at _ _ _ _ _ _ 8 "WAVE") by reflexivity.
  rewrite (writeString_at _ _ _ _ _ _ 12 "fmt ") by reflexivity.
  rewrite (setUint32_at _ _ _ _ _ _ 16) by reflexivity.
  rewrite (setUint16_at _ _ _ _ 20) by reflexivity.
  rewrite (setUint16_at _ _ _ _ 22) by reflexivity.
  rewrite (setUint32_at _ _ _ _ _ _ 24) by reflexivity.
  rewrite (setUint32_at _ _ _ _ _ _ 28) by reflexivity.
  rewrite (setUint16_at _ _ _ _ 32) by reflexivity.
  rewrite (setUint16_at _ _ _ _ 34) by reflexivity.
  rewrite (writeString_at _ _ _ _ _ _ 36 "data") by reflexivity.
  rewrite (setUint32_at _ _ _ _ _ _ 40) by reflexivity.
  unfold wav_header. by rewrite <- !app_assoc.
Qed.

(** Lines 148-153: sample [i] is written at offset [44 + 2 * i]. *)
Lemma samples_written (samples : list Q) (head : list Z) :
  len head = 44 ->
  for_range 0 (len samples)
    (fun '(view, offset) i =>
       (setInt16 view offset (quantize (nth (Z.to_nat i) samples 0%Q)), offset + 2))
    (head ++ replicate (Z.to_nat (len samples * 2)) 0, 44)
  = (head ++ flat_map pcm16 samples, 44 + len samples * 2).
Proof.
  intros Hhead.
  pose (P := fun (i : Z) (st : list Z * Z) =>
    st = (head ++ flat_map pcm16 (take (Z.to_nat i) samples)
            ++ replicate (Z.to_nat ((len samples - i) * 2)) 0, 44 + i * 2)).
  assert (HP : P (len samples)
    (for_range 0 (len samples)
       (fun '(view, offset) i =>
          (setInt16 view offset (quantize (nth (Z.to_nat i) samples 0%Q)), offset + 2))
       (head ++ replicate (Z.to_nat (len samples * 2)) 0, 44))).
  { apply (for_range_invariant P).
    - apply len_nonneg.
    - unfold P. simpl. by rewrite Z.sub_0_r.
    - intros i [view offset] Hi HPi. unfold P in *. injection HPi as -> ->.
      assert (Hs : samples !! Z.to_nat i = Some (nth (Z.to_nat i) samples 0%Q)).
      { destruct (nth_lookup_or_length samples (Z.to_nat i) 0%Q) as [Hn|Hn]; [done|].
        unfold len in Hi. lia. }
      replace (Z.to_nat (i + 1)) with (S (Z.to_nat i)) by lia.
      rewrite (take_S_r _ _ _ Hs), flat_map_app. cbn [flat_map]. rewrite app_nil_r.
      replace (Z.to_nat ((len samples - i) * 2))
        with (S (S (Z.to_nat ((len samples - (i + 1)) * 2)))) by lia.
      cbn [replicate]. unfold setInt16. rewrite app_assoc.
      rewrite setUint16_at.
      + f_equal; [|lia]. unfold pcm16 at 3. by rewrite <- !app_assoc.
      + rewrite len_app, len_flat_map_pcm16, Hhead. unfold len.
        rewrite length_take. unfold len in Hi. lia. }
  unfold P in HP. rewrite HP.
  rewrite Z.sub_diag. rewrite take_ge by (unfold len; lia).
  change (replicate (Z.to_nat (0 * 2)) 0) with (@nil Z). by rewrite app_nil_r.
Qed.

Lemma float32ToWav_bytes (samples : list Q) (sampleRate : Z) :
  float32ToWav samples sampleRate =
    wav_header (len samples) sampleRate ++ flat_map pcm16 samples.
Proof.
  unfold float32ToWav. cbv zeta.
  replace (replicate (Z.to_nat (44 + len samples * 2)) 0)
    with (replicate 44 0 ++ replicate (Z.to_nat (len samples * 2)) 0).
  - rewrite header_written, samples_written by reflexivity. done.
  - rewrite <- replicate_add. f_equal. pose proof (len_nonneg samples). lia.
Qed.

Lemma le_combine_split (k : nat) (v : Z) :
  le_combine (le_split k v) = v mod 2 ^ (8 * Z.of_nat k).
Proof.
  revert v. induction k as [|k IH]; intros v.
  - simpl. by rewrite Z.mod_1_r.
  - cbn [le_split le_combine]. rewrite IH.
    replace (8 * Z.of_nat (S k)) with (8 + 8 * Z.of_nat k) by lia.
    rewrite Z.pow_add_r by lia. change (2 ^ 8) with 256.
    rewrite Z.rem_mul_r by lia. done.
Qed.

Lemma le_split_bytes (k : nat) (v : Z) : Forall (fun b => 0 <= b < 256) (le_split k v).
Proof.
  revert v. induction k as [|k IH]; intros v; cbn [le_split]; constructor.
  - apply Z.mod_pos_bound. lia.
  - apply IH.
Qed.

Lemma charCodes_bytes (s : string) : Forall (fun b => 0 <= b < 256) (charCodes s).
Proof.
  unfold charCodes. apply Forall_fmap, Forall_true. intros c. simpl.
  pose proof (nat_ascii_bounded c). lia.
Qed.

Lemma truncate_bounds (q : Q) (lo hi : Z) :
  (inject_Z lo <= q <= inject_Z hi)%Q -> lo <= truncate q <= hi.
Proof.
  destruct q as [p d]. unfold Qle, truncate. simpl. intros [Hlo Hhi].
  rewrite Z.mul_1_r in Hlo, Hhi. split.
  - rewrite <- (Z.quot_mul lo (Z.pos d)) by lia. apply Z.quot_le_mono; lia.
  - rewrite <- (Z.quot_mul hi (Z.pos d)) by lia. apply Z.quot_le_mono; lia.
Qed.

Lemma Qlt_bool_iff (a b : Q) : Qlt_bool a b = true <-> (a < b)%Q.
Proof.
  unfold Qlt_bool. rewrite negb_true_iff. split.
  - intros Hb. apply Qnot_le_lt. intros Hle. apply Qle_bool_iff in Hle. congruence.
  - intros Hlt. destruct (Qle_bool b a) eqn:Hb; [|done].
    apply Qle_bool_iff in Hb. by apply Qlt_not_le in Hlt.
Qed.

Lemma clamp_range (sample : Q) : (-1 <= Qmax (-1) (Qmin 1 sample) <= 1)%Q.
Proof.
  split.
  - apply Q.le_max_l.
  - apply Q.max_lub; [done|apply Q.le_min_l].
Qed.

Lemma quantize_range (sample : Q) : -32768 <= truncate (quantize sample) <= 32767.
Proof.
  pose proof (clamp_range sample) as [Hlo Hhi]. unfold quantize. cbv zeta.
  set (c := Qmax (-1) (Qmin 1 sample)) in *.
  destruct (Qlt_bool c 0) eqn:Hneg.
  - apply Qlt_bool_iff in Hneg.
    assert (-32768 <= truncate (c * 32768) <= 0); [|lia].
    apply truncate_bounds. destruct c as [p d]. unfold Qle, Qlt in *. simpl in *. lia.
  - assert (~ (c < 0)%Q) as Hpos by (rewrite <- Qlt_bool_iff; congruence).
    apply Qnot_lt_le in Hpos.
    assert (0 <= truncate (c * 32767) <= 32767); [|lia].
    apply truncate_bounds. destruct c as [p d]. unfold Qle in *. simpl in *. lia.
Qed.

Lemma int16_le_combine (t : Z) :
  -32768 <= t <= 32767 -> int16 (le_combine (le_split 2 t)) = t.
Proof.
  intros Ht. rewrite le_combine_split. change (2 ^ (8 * Z.of_nat 2)) with 65536.
  unfold int16.
  pose proof (Z.div_mod t 65536 ltac:(lia)).
  pose proof (Z.mod_pos_bound t 65536 ltac:(lia)).
  destruct (Z.ltb_spec (t mod 65536) 32768); lia.
Qed.

Lemma sample_bytes_at (samples : list Q) (sampleRate : Z) (i : nat) (s : Q) :
  samples !! i = Some s ->
  take 2 (drop (44 + 2 * i) (float32ToWav samples sampleRate)) = pcm16 s.
Proof.
  intros Hs. rewrite float32ToWav_bytes.
  rewrite <- (take_drop_middle _ _ _ Hs) at 2.
  rewrite flat_map_app. cbn [flat_map]. rewrite (app_assoc (wav_header _ _)).
  rewrite drop_app_length'.
  - apply take_app_length'. reflexivity.
  - rewrite length_app.
    pose proof (len_flat_map_pcm16 (take i samples)) as Hl. unfold len in Hl.
    rewrite length_take in Hl. apply lookup_lt_Some in Hs.
    change (length (wav_header (len samples) sampleRate)) with 44%nat. lia.
Qed.

(** C8: the buffer has [44 + 2 * n] bytes: the 44 bytes of a RIFF/WAVE
    header (PCM, one channel, 16 bits, fields low byte first, the sample rate
    as a 32-bit field), then the samples in order, two bytes each.  A sample
    is clamped to [[-1, 1]], multiplied by [32768] when negative and by
    [32767] otherwise, and its integer part, which fits 16 bits, is stored in
    two's complement, low byte first. *)
Theorem float32ToWav_layout (samples : list Q) (sampleRate : Z) :
  let wav := float32ToWav samples sampleRate in
  len wav = 44 + 2 * len samples /\
  Forall (fun b => 0 <= b < 256) wav /\
  wav = wav_header (len samples) sampleRate ++ flat_map pcm16 samples /\
  len (wav_header (len samples) sampleRate) = 44 /\
  le_combine (le_split 4 sampleRate) = sampleRate mod 2 ^ 32 /\
  (forall (i : nat) s, samples !! i = Some s -> take 2 (drop (44 + 2 * i) wav) = pcm16 s) /\
  (forall s,
     let c := Qmax (-1) (Qmin 1 s) in
     (-1 <= c <= 1)%Q /\
     (Qlt_bool c 0 = true <-> (c < 0)%Q) /\
     quantize s = (if Qlt_bool c 0 then c * 32768 else c * 32767)%Q /\
     pcm16 s = le_split 2 (truncate (quantize s)) /\
     -32768 <= truncate (quantize s) <= 32767 /\
     int16 (le_combine (pcm16 s)) = truncate (quantize s)).
Proof.
  cbv zeta. rewrite float32ToWav_bytes. repeat split.
  - rewrite len_app, len_flat_map_pcm16. change (len (wav_header _ _)) with 44. lia.
  - apply Forall_app. split.
    + unfold wav_header.
      repeat (apply Forall_app; split); auto using le_split_bytes, charCodes_bytes.
    + induction samples as [|s samples IH]; [constructor|].
      cbn [flat_map]. apply Forall_app. split; [apply le_split_bytes|apply IH].
  - apply (le_combine_split 4).
  - intros i s Hs. rewrite <- float32ToWav_bytes. by apply sample_bytes_at.
  - apply clamp_range.
  - apply clamp_range.
  - apply Qlt_bool_iff.
  - apply Qlt_bool_iff.
  - apply quantize_range.
  - apply quantize_range.
  - apply int16_le_combine, quantize_range.
Qed.

(** ** The model loader *)

Module LoaderProperties.
Import Loader.

(** The metadata is loaded before the language model is requested. *)
Lemma loadLabels_models (w : World) (s : State) :
  languageModel (loadLabels w s) = languageModel s /\
  accentModel (loadLabels w s) = accentModel s /\
  spoofingModel (loadLabels w s) = spoofingModel s /\
  modelsLoaded (loadLabels w s) = modelsLoaded s /\
  spoofingConfig (loadLabels w s) = spoofingConfig s.
Proof. unfold loadLabels. by destruct (fetch_labels w). Qed.

Lemma loadSpoofingConfig_models (w : World) (s : State) :
  languageModel (loadSpoofingConfig w s) = languageModel s /\
  accentModel (loadSpoofingConfig w s) = accentModel s /\
  spoofingModel (loadSpoofingConfig w s) = spoofingModel s /\
  modelsLoaded (loadSpoofingConfig w s) = modelsLoaded s /\
  languageLabels (loadSpoofingConfig w s) = languageLabels s.
Proof. unfold loadSpoofingConfig. by destruct (fetch_spoofingConfig w). Qed.

(** C9 (as the code has it): when the language model cannot be loaded,
    [loadModels] raises, [modelsLoaded] stays false and the three model
    references are what they were; the labels and the spoofing configuration
    that this call fetched (or defaulted) before it asked for the model stay
    in the module's variables.  When the language model loads, a missing
    accent or spoofing model leaves its reference null and the call returns
    with [modelsLoaded] true. *)
Theorem loadModels_required_and_optional (w : World) (s : State) :
  modelsLoaded s = false ->
  tf_ready w = Returns tt ->
  (forall message,
     loadLayersModel w (path_language MODEL_PATHS) = Throws message ->
     let s' := snd (loadModels w s) in
     fst (loadModels w s) =
       Throws (rethrow ("Error cargando modelo de idioma: " ++ message)%string) /\
     modelsLoaded s' = false /\
     languageModel s' = languageModel s /\
     accentModel s' = accentModel s /\
     spoofingModel s' = spoofingModel s /\
     s' = loadSpoofingConfig w (loadLabels w s) /\
     languageLabels s' = languageLabels (loadLabels w s) /\
     spoofingConfig s' = spoofingConfig (loadSpoofingConfig w s)) /\
  (forall model,
     loadLayersModel w (path_language MODEL_PATHS) = Returns model ->
     let s' := snd (loadModels w s) in
     (exists models, fst (loadModels w s) = Returns models /\
        r_languageModel models = Some model /\
        r_accentModel models = accentModel s' /\
        r_spoofingModel models = spoofingModel s') /\
     modelsLoaded s' = true /\
     languageModel s' = Some model /\
     (forall message, loadLayersModel w (path_accent MODEL_PATHS) = Throws message ->
        accentModel s' = None) /\
     (forall message, loadLayersModel w (path_spoofing MODEL_PATHS) = Throws message ->
        spoofingModel s' = None)).
Proof.
  intros Hfresh Hready. split.
  - intros message Hlang. cbv zeta. unfold loadModels.
    rewrite Hfresh, Hready, Hlang. cbn [fst snd].
    destruct (loadLabels_models w s) as (L1 & L2 & L3 & L4 & L5).
    destruct (loadSpoofingConfig_models w (loadLabels w s)) as (S1 & S2 & S3 & S4 & S5).
    repeat split; try congruence.
    unfold loadSpoofingConfig. destruct (fetch_spoofingConfig w); simpl; congruence.
  - intros model Hlang. cbv zeta. unfold loadModels.
    rewrite Hfresh, Hready, Hlang.
    destruct (loadLayersModel w (path_accent MODEL_PATHS)) as [accent|ma];
      destruct (loadLayersModel w (path_spoofing MODEL_PATHS)) as [spoof|ms];
      cbn [fst snd]; (split; [eexists; split; [reflexivity|by repeat split]|]);
      repeat split; try done; intros; discriminate.
Qed.

Lemma loadModels_language_failure_example :
  let s' := snd (loadModels world_without_models initial) in
  modelsLoaded initial = false /\
  tf_ready world_without_models = Returns tt /\
  modelsLoaded s' = false /\ languageModel s' = None.
Proof.
  cbv zeta.
  assert (Hfresh : modelsLoaded initial = false) by reflexivity.
  assert (Hready : tf_ready world_without_models = Returns tt) by reflexivity.
  destruct (loadModels_required_and_optional world_without_models initial Hfresh Hready)
    as [Hfail _].
  destruct (Hfail "Request to /models/language/model.json failed with status code 404"%string
              eq_refl) as (_ & Hloaded & Hmodel & _).
  split; [exact Hfresh|]. split; [exact Hready|]. split; [exact Hloaded|exact Hmodel].
Defined.

(** C9 (as it is stated) fails: after the load has failed on the language
    model, the labels and the spoofing configuration of that load are still
    in the module's variables. *)
Lemma failed_load_keeps_metadata :
  let s' := snd (loadModels world_without_models initial) in
  fst (loadModels world_without_models initial) =
    Throws ("No se encontraron los modelos. Asegúrate de haber entrenado y convertido los modelos a TensorFlow.js. "
            ++ "Los archivos deben estar en /public/models/language/")%string /\
  modelsLoaded s' = false /\
  languageModel s' = None /\
  languageLabels s' = Some ["es"; "en"; "fr"; "de"]%string /\
  spoofingConfig s' = Some {| threshold := 1 # 2; labels := ["human"; "spoof"]%string |} /\
  fst (getModels s') <> fst (getModels initial) /\
  s' <> initial.
Proof. cbv zeta. repeat split; try reflexivity; discriminate. Qed.

(** With the language model alone, the load succeeds and the optional
    references are null. *)
Example loadModels_language_only :
  let s' := snd (loadModels world_language_only initial) in
  modelsLoaded s' = true /\
  languageModel s' = Some {| model_path := "/models/language/model.json" |} /\
  accentModel s' = None /\ spoofingModel s' = None /\
  languageLabels s' = None /\ spoofingConfig s' = None.
Proof. cbv zeta. repeat split. Qed.

End LoaderProperties.

(** ** The WAV writer on concrete samples *)

(** No sample at 16 kHz: the header alone (16000 = 0x3E80, 32000 = 0x7D00). *)
Example float32ToWav_empty :
  float32ToWav [] 16000 =
    [82; 73; 70; 70; 36; 0; 0; 0; 87; 65; 86; 69; 102; 109; 116; 32;
     16; 0; 0; 0; 1; 0; 1; 0; 128; 62; 0; 0; 0; 125; 0; 0; 2; 0; 16; 0;
     100; 97; 116; 97; 0; 0; 0; 0].
Proof. by vm_compute. Qed.

(** Full scale, half scale and out-of-range samples: 1 gives 32767, -1
    gives -32768, 1/2 gives 16383 (from 16383.5), -1/2 gives -16384, and 3
    and -3 are clamped. *)
Example float32ToWav_samples :
  drop 44 (float32ToWav [1; -1; 1 # 2; -1 # 2; 3; -3; 0]%Q 16000) =
    [255; 127; 0; 128; 255; 63; 0; 192; 255; 127; 0; 128; 0; 0] /\
  (truncate <$> (quantize <$> [1; -1; 1 # 2; -1 # 2; 3; -3; 0]%Q)) =
    [32767; -32768; 16383; -16384; 32767; -32768; 0].
Proof. by vm_compute. Qed.

(** * More properties of the code *)

(** ** What the features depend on *)

Section FeatureDependence.
Context {F : Type} `{Number F} `{Sqrt F}.
Implicit Types (frame channelData audioData : list F).

(** Normalising the length twice is normalising it once. *)
Theorem audioBufferToFloat32_idempotent channelData :
  audioBufferToFloat32 (audioBufferToFloat32 channelData) = audioBufferToFloat32 channelData.
Proof.
  pose proof (len_audioBufferToFloat32 channelData) as Hlen.
  destruct (audioBufferToFloat32_cases (audioBufferToFloat32 channelData))
    as [[Hl _]|[[Hl _]|[_ Heq]]]; [lia|lia|exact Heq].
Qed.

Lemma bin_take_drop frame (j : Z) :
  0 <= j < nMfcc CONFIG ->
  let binSize := len frame / nMfcc CONFIG in
  bin frame j =
    drop (Z.to_nat (j * binSize))
      (take (Z.to_nat (j * binSize) + Z.to_nat binSize)
         (take (Z.to_nat (nMfcc CONFIG * binSize)) frame)).
Proof.
  intros Hj. cbv zeta. destruct (bin_inside frame j Hj) as (Hw & Hs & He).
  unfold bin. cbv zeta. rewrite slice_inside by lia.
  replace (Z.to_nat (j * (len frame / nMfcc CONFIG) + len frame / nMfcc CONFIG
                     - j * (len frame / nMfcc CONFIG)))
    with (Z.to_nat (len frame / nMfcc CONFIG)) by lia.
  rewrite take_drop_commute, take_take. do 2 f_equal.
  change (nMfcc CONFIG) with 40 in *.
  assert (j * (len frame / 40) + len frame / 40 <= 40 * (len frame / 40)) by nia.
  lia.
Qed.

(** The bins see the first [nMfcc * binSize] samples of the frame only. *)
Lemma energy_prefix frame1 frame2 (j : Z) :
  0 <= j < nMfcc CONFIG ->
  len frame1 = len frame2 ->
  take (Z.to_nat (nMfcc CONFIG * (len frame1 / nMfcc CONFIG))) frame1 =
  take (Z.to_nat (nMfcc CONFIG * (len frame1 / nMfcc CONFIG))) frame2 ->
  energy frame1 j = energy frame2 j.
Proof.
  intros Hj Hlen Htake. unfold energy. do 2 f_equal.
  rewrite !bin_take_drop by done. cbv zeta. rewrite <- Hlen, Htake. done.
Qed.

(** The feature vector is a function of the energies. *)
Lemma frameFeatures_energy_ext frame1 frame2 :
  (forall j, 0 <= j < nMfcc CONFIG -> energy frame1 j = energy frame2 j) ->
  frameFeatures frame1 = frameFeatures frame2.
Proof.
  intros Henergy.
  destruct (frameFeatures_bands frame1) as [Hl1 Hb1].
  destruct (frameFeatures_bands frame2) as [Hl2 Hb2].
  assert (Hdelta : forall j, 0 <= j < nMfcc CONFIG -> delta frame1 j = delta frame2 j).
  { intros j Hj. unfold delta. destruct (Z.ltb_spec 0 j); [|done].
    by rewrite !Henergy by lia. }
  assert (Hdelta2 : forall j, 0 <= j < nMfcc CONFIG -> delta2 frame1 j = delta2 frame2 j).
  { intros j Hj. unfold delta2. destruct (Z.ltb_spec 0 j); [|done].
    by rewrite !Hdelta by lia. }
  change (nMfcc CONFIG) with 40 in *. change (nFeatures CONFIG) with 120 in *.
  apply array_eq; [lia|]. rewrite Hl1. intros i Hi.
  destruct (Z.lt_ge_cases i 40); [|destruct (Z.lt_ge_cases i 80)].
  - rewrite (proj1 (Hb1 i ltac:(lia))), (proj1 (Hb2 i ltac:(lia))). apply Henergy. lia.
  - destruct (Hb1 (i - 40) ltac:(lia)) as (_ & E1 & _).
    destruct (Hb2 (i - 40) ltac:(lia)) as (_ & E2 & _).
    replace (i - 40 + 40) with i in * by lia. rewrite E1, E2. apply Hdelta. lia.
  - destruct (Hb1 (i - 80) ltac:(lia)) as (_ & _ & E1).
    destruct (Hb2 (i - 80) ltac:(lia)) as (_ & _ & E2).
    replace (i - 80 + 2 * 40) with i in * by lia. rewrite E1, E2. apply Hdelta2. lia.
Qed.

Lemma natural_features_prefix audioData1 audioData2 :
  len audioData1 = 48000 -> len audioData2 = 48000 ->
  take (Z.to_nat 47608) audioData1 = take (Z.to_nat 47608) audioData2 ->
  natural_features audioData1 = natural_features audioData2.
Proof.
  intros Hl1 Hl2 Htake. rewrite !natural_features_map.
  assert (Hn1 : numFrames audioData1 = 90) by (unfold numFrames; rewrite Hl1; reflexivity).
  assert (Hn2 : numFrames audioData2 = 90) by (unfold numFrames; rewrite Hl2; reflexivity).
  rewrite Hn1, Hn2. apply list_fmap_ext. intros k i Hk.
  apply lookup_seqZ in Hk as [-> Hk]. rewrite Z.add_0_l.
  apply frameFeatures_energy_ext. intros j Hj.
  pose proof (len_frame_at audioData1 (Z.of_nat k) ltac:(lia)) as Hf1.
  pose proof (len_frame_at audioData2 (Z.of_nat k) ltac:(lia)) as Hf2.
  apply energy_prefix; [done|congruence|].
  rewrite Hf1. rewrite !frame_at_inside by lia.
  change (Z.to_nat (nMfcc CONFIG * (fftSize CONFIG / nMfcc CONFIG))) with 2040%nat.
  change (Z.to_nat (fftSize CONFIG)) with 2048%nat. change (hopLength CONFIG) with 512.
  rewrite !take_take, !take_drop_commute. replace (2040 `min` 2048)%nat with 2040%nat by lia.
  assert (Hin : forall a : list F,
    take (Z.to_nat (Z.of_nat k * 512) + 2040) a =
    take (Z.to_nat (Z.of_nat k * 512) + 2040) (take (Z.to_nat 47608) a)).
  { intros a. rewrite take_take. f_equal. lia. }
  by rewrite (Hin audioData1), (Hin audioData2), Htake.
Qed.
End FeatureDependence.

Section TailIgnored.
Context {F : Type} `{Number F}.

Lemma features_prefix (channelData1 channelData2 : list F) :
  take (Z.to_nat 47608) (audioBufferToFloat32 channelData1) =
  take (Z.to_nat 47608) (audioBufferToFloat32 channelData2) ->
  features channelData1 = features channelData2.
Proof.
  intros Htake. unfold features. f_equal.
  apply natural_features_prefix; auto using len_audioBufferToFloat32.
Qed.

(** The features are a function of the first 47608 samples of the
    normalised signal: the last 392 of its 48000 samples (24.5 ms), like
    everything past 48000 samples in the input, are never read. *)
Theorem features_ignore_tail (channelData1 channelData2 : list F) :
  take (Z.to_nat 47608) (audioBufferToFloat32 channelData1) =
  take (Z.to_nat 47608) (audioBufferToFloat32 channelData2) ->
  features channelData1 = features channelData2.
Proof. apply features_prefix. Qed.

(** So is the tensor that [extractMFCC] returns. *)
Corollary extractMFCC_prefix `{Sqrt F} (channelData1 channelData2 : list F) :
  take (Z.to_nat 47608) (audioBufferToFloat32 channelData1) =
  take (Z.to_nat 47608) (audioBufferToFloat32 channelData2) ->
  extractMFCC channelData1 = extractMFCC channelData2.
Proof. intros Htake. unfold extractMFCC. by rewrite (features_prefix _ _ Htake). Qed.
End TailIgnored.

Lemma features_ignore_tail_example :
  features (F:=Q) [] = features (replicate (Z.to_nat 47608) 0%Q ++ [1%Q; 1%Q]).
Proof.
  apply (features_ignore_tail (F:=Q)).
  apply (bool_decide_eq_true_1 _). vm_compute. reflexivity.
Defined.

(** Sample 47607 is the last one that is read: it is in bin 39 of frame
    89. *)
Example last_sample_read :
  get (frameFeatures
         (frame_at (audioBufferToFloat32 (replicate (Z.to_nat 47607) 0%Q ++ [1%Q])) 89)) 39
  = (1 # 51)%Q.
Proof. by vm_compute. Qed.

(** ** Ranges of the features, in exact real arithmetic *)

Section FeatureRanges.
Local Open Scope R_scope.
Implicit Types (frame channelData : list R) (M : R) (j : Z).

Lemma abs_sum_bounds (l : list R) M (a : R) :
  Forall (fun v => Rabs v <= M) l ->
  a <= foldl (fun s v => s + Rabs v) a l <= a + M * IZR (len l).
Proof.
  revert a. induction l as [|v l IH]; intros a Hl.
  - simpl. change (len []) with 0%Z. lra.
  - inversion Hl as [|? ? Hv Hl']; subst. simpl.
    specialize (IH (a + Rabs v) Hl').
    replace (len (v :: l)) with (len l + 1)%Z by (unfold len; simpl; lia).
    rewrite plus_IZR. pose proof (Rabs_pos v). lra.
Qed.

Lemma energy_bounds frame j M :
  len frame = 2048%Z -> (0 <= j < nMfcc CONFIG)%Z ->
  Forall (fun v => Rabs v <= M) frame ->
  0 <= energy frame j <= M.
Proof.
  intros Hlen Hj Hframe.
  assert (Hbin : Forall (fun v => Rabs v <= M) (bin frame j)).
  { rewrite bin_take_drop by done. cbv zeta. by apply Forall_drop, Forall_take, Forall_take. }
  pose proof (abs_sum_bounds _ M 0 Hbin) as Hsum.
  unfold energy, mean_abs. rewrite len_bin in * by done. rewrite Hlen in *.
  change (2048 / nMfcc CONFIG)%Z with 51%Z in *. reals.
  set (total := foldl _ 0 _) in *. split.
  - apply Rmult_le_pos; lra.
  - apply (Rmult_le_reg_r 51); [lra|]. unfold Rdiv. rewrite Rmult_assoc, Rinv_l; lra.
Qed.

Lemma signal_bounded channelData M :
  0 <= M ->
  Forall (fun v => Rabs v <= M) channelData ->
  Forall (fun v => Rabs v <= M) (audioBufferToFloat32 channelData).
Proof.
  intros HM Hcd.
  destruct (audioBufferToFloat32_cases channelData) as [[_ ->]|[[_ ->]|[_ ->]]].
  - by apply Forall_take.
  - apply Forall_app. split; [done|]. apply Forall_replicate.
    reals. rewrite Rabs_R0. done.
  - done.
Qed.

Lemma frameFeatures_bounds frame M :
  len frame = 2048%Z ->
  Forall (fun v => Rabs v <= M) frame ->
  band_in_range M (frameFeatures frame).
Proof.
  intros Hlen Hframe j Hj.
  destruct (frameFeatures_bands frame) as [_ Hb].
  destruct (Hb j Hj) as (-> & -> & ->).
  assert (He : forall k, (0 <= k < nMfcc CONFIG)%Z -> 0 <= energy frame k <= M)
    by (intros k Hk; by apply energy_bounds).
  assert (Hd : forall k, (0 <= k < nMfcc CONFIG)%Z -> - M <= delta frame k <= M).
  { intros k Hk. unfold delta. pose proof (He k Hk).
    destruct (Z.ltb_spec 0 k); reals; [|lra].
    pose proof (He (k - 1)%Z ltac:(lia)). lra. }
  split; [by apply He|]. split; [by apply Hd|].
  unfold delta2. pose proof (Hd j Hj).
  destruct (Z.ltb_spec 0 j); reals; [|lra].
  pose proof (Hd (j - 1)%Z ltac:(lia)). lra.
Qed.

Lemma features_bounds channelData M :
  0 <= M ->
  Forall (fun v => Rabs v <= M) channelData ->
  Forall (band_in_range M) (features channelData).
Proof.
  intros HM Hcd. pose proof (signal_bounded channelData M HM Hcd) as Hsig.
  pose proof (len_audioBufferToFloat32 channelData) as Hlen.
  rewrite features_natural, natural_features_map.
  assert (Hn : numFrames (audioBufferToFloat32 channelData) = 90%Z)
    by (unfold numFrames; rewrite Hlen; reflexivity).
  rewrite Hn. apply Forall_app. split.
  - apply Forall_fmap, Forall_seqZ. intros i Hi. simpl.
    apply frameFeatures_bounds.
    + apply len_frame_at. lia.
    + rewrite frame_at_inside by lia. by apply Forall_take, Forall_drop.
  - apply Forall_replicate. intros j Hj. change (nMfcc CONFIG) with 40%Z in *.
    rewrite !get_replicate by lia. reals. lra.
Qed.

Lemma zero_rows (x : list (list R)) :
  len x = 94%Z ->
  Forall (fun row => len row = 120%Z) x ->
  (forall c, (0 <= c < 120)%Z -> Forall (fun row => get row c = 0) x) ->
  x = replicate 94 (replicate 120 0).
Proof.
  intros Hlen Hrows Hzero. symmetry. apply replicate_as_Forall.
  split; [unfold len in Hlen; lia|].
  apply Forall_lookup. intros t row Ht. symmetry. apply array_eq.
  - rewrite (Forall_lookup_1 _ _ _ _ Hrows Ht). reflexivity.
  - rewrite (Forall_lookup_1 _ _ _ _ Hrows Ht). intros c Hc.
    rewrite (Forall_lookup_1 _ _ _ _ (Hzero c Hc) Ht).
    by rewrite get_replicate by lia.
Qed.

End FeatureRanges.

(** ** The WAV file: header fields and quantisation *)

Lemma le_combine_small (k : nat) (v : Z) :
  0 <= v < 2 ^ (8 * Z.of_nat k) -> le_combine (le_split k v) = v.
Proof. intros Hv. rewrite le_combine_split. by apply Z.mod_small. Qed.

(** The fields of the header, read back low byte first, describe the
    file: the RIFF size is the file length less 8, the data size is the file
    length less 44, the format is PCM with one channel of 16 bits, and the
    byte rate is the sample rate times the block size 2. *)
Theorem wav_header_fields (samples : list Q) (sampleRate : Z) :
  0 <= sampleRate -> sampleRate * 2 < 2 ^ 32 -> 36 + len samples * 2 < 2 ^ 32 ->
  let wav := float32ToWav samples sampleRate in
  take 4 wav = charCodes "RIFF" /\
  le_combine (take 4 (drop 4 wav)) = len wav - 8 /\
  take 8 (drop 8 wav) = charCodes "WAVEfmt " /\
  le_combine (take 4 (drop 16 wav)) = 16 /\
  le_combine (take 2 (drop 20 wav)) = 1 /\
  le_combine (take 2 (drop 22 wav)) = 1 /\
  le_combine (take 4 (drop 24 wav)) = sampleRate /\
  le_combine (take 4 (drop 28 wav)) = sampleRate * 2 /\
  le_combine (take 2 (drop 32 wav)) = 2 /\
  le_combine (take 2 (drop 34 wav)) = 16 /\
  take 4 (drop 36 wav) = charCodes "data" /\
  le_combine (take 4 (drop 40 wav)) = len wav - 44.
Proof.
  intros Hrate Hbyte Hsize. cbv zeta.
  assert (Hlen : len (float32ToWav samples sampleRate) = 44 + len samples * 2).
  { rewrite float32ToWav_bytes, len_app, len_flat_map_pcm16.
    change (len (wav_header _ _)) with 44. lia. }
  rewrite Hlen. rewrite float32ToWav_bytes. pose proof (len_nonneg samples).
  set (data := flat_map pcm16 samples).
  split; [reflexivity|].
  split; [change (take 4 (drop 4 (wav_header (len samples) sampleRate ++ data)))
            with (le_split 4 (36 + len samples * 2)); rewrite le_combine_small; lia|].
  split; [reflexivity|]. split; [reflexivity|]. split; [reflexivity|]. split; [reflexivity|].
  split; [change (take 4 (drop 24 (wav_header (len samples) sampleRate ++ data)))
            with (le_split 4 sampleRate); rewrite le_combine_small; lia|].
  split; [change (take 4 (drop 28 (wav_header (len samples) sampleRate ++ data)))
            with (le_split 4 (sampleRate * 2)); rewrite le_combine_small; lia|].
  split; [reflexivity|]. split; [reflexivity|]. split; [reflexivity|].
  change (take 4 (drop 40 (wav_header (len samples) sampleRate ++ data)))
    with (le_split 4 (len samples * 2)). rewrite le_combine_small; lia.
Qed.

Lemma wav_header_fields_example :
  le_combine (take 4 (drop 4 (float32ToWav [1; -1; 1 # 2]%Q 16000)))
    = len (float32ToWav [1; -1; 1 # 2]%Q 16000) - 8 /\
  le_combine (take 4 (drop 24 (float32ToWav [1; -1; 1 # 2]%Q 16000))) = 16000.
Proof.
  assert (H1 : 0 <= 16000) by lia.
  assert (H2 : 16000 * 2 < 2 ^ 32) by reflexivity.
  assert (H3 : 36 + len [1; -1; 1 # 2]%Q * 2 < 2 ^ 32) by reflexivity.
  destruct (wav_header_fields [1; -1; 1 # 2]%Q 16000 H1 H2 H3)
    as (_ & Hriff & _ & _ & _ & _ & Hrate & _).
  split; [exact Hriff|exact Hrate].
Defined.

Lemma truncate_toward_zero (q : Q) :
  ((0 <= q)%Q -> (inject_Z (truncate q) <= q < inject_Z (truncate q) + 1)%Q) /\
  ((q <= 0)%Q -> (inject_Z (truncate q) - 1 < q <= inject_Z (truncate q))%Q).
Proof.
  destruct q as [p d]. unfold truncate, Qle, Qlt. simpl.
  rewrite !Z.mul_1_r. split; intros Hp.
  - assert (0 <= p) by lia. rewrite Z.quot_div_nonneg by lia.
    pose proof (Z.mul_div_le p (Z.pos d) ltac:(lia)).
    pose proof (Z.mul_succ_div_gt p (Z.pos d) ltac:(lia)). nia.
  - assert (p <= 0) by lia.
    assert (Hq : p ÷ Z.pos d = - (- p / Z.pos d)).
    { rewrite <- Z.quot_div_nonneg by lia. rewrite Z.quot_opp_l by lia. lia. }
    rewrite Hq.
    pose proof (Z.mul_div_le (- p) (Z.pos d) ltac:(lia)).
    pose proof (Z.mul_succ_div_gt (- p) (Z.pos d) ltac:(lia)). nia.
Qed.

(** The stored integer is the scaled sample rounded toward zero: it
    differs from [c * 32767] (for [c >= 0]) or [c * 32768] (for [c < 0]) by
    less than one unit, [c] being the sample clamped to [[-1, 1]]. *)
Theorem quantization_error (sample : Q) :
  let c := Qmax (-1) (Qmin 1 sample) in
  let t := truncate (quantize sample) in
  ((0 <= c)%Q -> (inject_Z t <= c * 32767 < inject_Z t + 1)%Q) /\
  ((c < 0)%Q -> (inject_Z t - 1 < c * 32768 <= inject_Z t)%Q).
Proof.
  cbv zeta. unfold quantize. cbv zeta.
  set (c := Qmax (-1) (Qmin 1 sample)). split; intros Hc.
  - destruct (Qlt_bool c 0) eqn:Hneg.
    + apply Qlt_bool_iff in Hneg. by apply Qlt_not_le in Hneg.
    + apply (proj1 (truncate_toward_zero _)).
      destruct c as [p d]. unfold Qle in *. simpl in *. lia.
  - apply Qlt_bool_iff in Hc as Hneg. rewrite Hneg.
    apply (proj2 (truncate_toward_zero _)).
    destruct c as [p d]. unfold Qle, Qlt in *. simpl in *. lia.
Qed.

Lemma quantization_error_example :
  (inject_Z (truncate (quantize (1 # 3))) <= Qmax (-1) (Qmin 1 (1 # 3)) * 32767
     < inject_Z (truncate (quantize (1 # 3))) + 1)%Q.
Proof.
  refine (proj1 (quantization_error (1 # 3)) _). vm_compute. discriminate.
Defined.

Lemma floor_monotone (p1 p2 : Z) (d1 d2 : positive) :
  0 <= p1 -> p1 * Z.pos d2 <= p2 * Z.pos d1 -> p1 / Z.pos d1 <= p2 / Z.pos d2.
Proof.
  intros Hp Hle. apply Z.div_le_lower_bound; [lia|].
  pose proof (Z.mul_div_le p1 (Z.pos d1) ltac:(lia)).
  pose proof (Z.div_pos p1 (Z.pos d1) ltac:(lia) ltac:(lia)). nia.
Qed.

Lemma truncate_monotone (q1 q2 : Q) : (q1 <= q2)%Q -> truncate q1 <= truncate q2.
Proof.
  destruct q1 as [p1 d1], q2 as [p2 d2]. unfold Qle, truncate. simpl. intros Hle.
  destruct (Z.le_gt_cases 0 p1) as [H1|H1].
  - assert (0 <= p2) by nia. rewrite !Z.quot_div_nonneg by lia.
    by apply floor_monotone.
  - assert (Hq1 : p1 ÷ Z.pos d1 = - (- p1 / Z.pos d1)).
    { rewrite <- Z.quot_div_nonneg by lia. rewrite Z.quot_opp_l by lia. lia. }
    rewrite Hq1. destruct (Z.le_gt_cases 0 p2) as [H2|H2].
    + rewrite Z.quot_div_nonneg by lia.
      pose proof (Z.div_pos (- p1) (Z.pos d1) ltac:(lia) ltac:(lia)).
      pose proof (Z.div_pos p2 (Z.pos d2) ltac:(lia) ltac:(lia)). lia.
    + assert (Hq2 : p2 ÷ Z.pos d2 = - (- p2 / Z.pos d2)).
      { rewrite <- Z.quot_div_nonneg by lia. rewrite Z.quot_opp_l by lia. lia. }
      rewrite Hq2.
      pose proof (floor_monotone (- p2) (- p1) d2 d1 ltac:(lia) ltac:(lia)). lia.
Qed.

Lemma clamp_monotone (s1 s2 : Q) :
  (s1 <= s2)%Q -> (Qmax (-1) (Qmin 1 s1) <= Qmax (-1) (Qmin 1 s2))%Q.
Proof. intros Hs. by apply Q.max_le_compat_l, Q.min_le_compat_l. Qed.

Lemma quantize_monotone (s1 s2 : Q) : (s1 <= s2)%Q -> (quantize s1 <= quantize s2)%Q.
Proof.
  intros Hs. pose proof (clamp_monotone s1 s2 Hs) as Hc. unfold quantize. cbv zeta.
  set (c1 := Qmax (-1) (Qmin 1 s1)) in *. set (c2 := Qmax (-1) (Qmin 1 s2)) in *.
  clearbody c1 c2.
  destruct (Qlt_bool c1 0) eqn:H1, (Qlt_bool c2 0) eqn:H2.
  - destruct c1, c2. unfold Qle in *. simpl in *. lia.
  - apply Qlt_bool_iff in H1.
    assert (~ (c2 < 0)%Q) as H2' by (rewrite <- Qlt_bool_iff; congruence).
    apply Qnot_lt_le in H2'. destruct c1, c2. unfold Qle, Qlt in *. simpl in *. nia.
  - apply Qlt_bool_iff in H2.
    assert (~ (c1 < 0)%Q) as H1' by (rewrite <- Qlt_bool_iff; congruence).
    apply Qnot_lt_le in H1'. destruct c1, c2. unfold Qle, Qlt in *. simpl in *. nia.
  - destruct c1, c2. unfold Qle in *. simpl in *. lia.
Qed.

Lemma pcm_le (s1 s2 : Q) :
  (s1 <= s2)%Q -> truncate (quantize s1) <= truncate (quantize s2).
Proof. intros Hs. by apply truncate_monotone, quantize_monotone. Qed.

(** A larger sample never gets a smaller 16-bit value. *)
Theorem pcm_monotone (s1 s2 : Q) :
  (s1 <= s2)%Q -> truncate (quantize s1) <= truncate (quantize s2).
Proof. apply pcm_le. Qed.

Lemma pcm_monotone_example :
  truncate (quantize (- (1 # 3))) <= truncate (quantize (2 # 3)).
Proof. apply pcm_monotone. discriminate. Defined.

(** Samples at or beyond full scale saturate: 1 and more gives 32767, -1
    and less gives -32768; silence gives 0. *)
Theorem pcm_saturation (sample : Q) :
  ((1 <= sample)%Q -> truncate (quantize sample) = 32767) /\
  ((sample <= -1)%Q -> truncate (quantize sample) = -32768) /\
  ((sample == 0)%Q -> truncate (quantize sample) = 0).
Proof.
  pose proof (quantize_range sample) as Hrange.
  split; [|split]; intros Hs.
  - pose proof (pcm_le 1 sample Hs) as Hle.
    change (truncate (quantize 1)) with 32767 in Hle. lia.
  - pose proof (pcm_le sample (-1) Hs) as Hle.
    change (truncate (quantize (-1))) with (-32768) in Hle. lia.
  - assert (H1 : (sample <= 0)%Q) by (rewrite Hs; apply Qle_refl).
    assert (H2 : (0 <= sample)%Q) by (rewrite Hs; apply Qle_refl).
    pose proof (pcm_le sample 0 H1) as Hle1. pose proof (pcm_le 0 sample H2) as Hle2.
    change (truncate (quantize 0)) with 0 in *. lia.
Qed.

Lemma pcm_saturation_example :
  truncate (quantize 2) = 32767 /\ truncate (quantize (- (3 # 2))) = -32768.
Proof.
  split.
  - refine (proj1 (pcm_saturation 2) _). discriminate.
  - refine (proj1 (proj2 (pcm_saturation (- (3 # 2)))) _). discriminate.
Defined.

(** ** The recorder *)

Module RecorderProperties.
Import Recorder.

Lemma totalLength_from (chunks : list (list Q)) (a : Z) :
  foldl (fun acc chunk => acc + len chunk) a chunks = a + len (concat chunks).
Proof.
  revert a. induction chunks as [|c chunks IH]; intros a; simpl.
  - change (len []) with 0. lia.
  - rewrite IH, len_app. lia.
Qed.

Lemma totalLength_concat (chunks : list (list Q)) : totalLength chunks = len (concat chunks).
Proof. unfold totalLength. rewrite totalLength_from. lia. Qed.

Lemma typed_set_at_next {A} (done_ source rest : list A) (zero : A) :
  typed_set_at (done_ ++ replicate (length source) zero ++ rest) source (len done_)
  = (done_ ++ source) ++ rest.
Proof.
  unfold typed_set_at, len. rewrite Nat2Z.id.
  rewrite take_app_length, drop_app_ge by lia.
  replace (length done_ + length source - length done_)%nat with (length source) by lia.
  rewrite drop_app_length' by (by rewrite length_replicate).
  rewrite take_ge.
  - by rewrite <- !app_assoc.
  - rewrite !length_app, length_replicate. lia.
Qed.

Lemma merge_loop (chunks : list (list Q)) :
  forall (done_ rest : list Q),
    foldl (fun '(mergedData, offset) chunk =>
             (typed_set_at mergedData chunk offset, offset + len chunk))
          (done_ ++ replicate (length (concat chunks)) 0%Q ++ rest, len done_) chunks
    = (done_ ++ concat chunks ++ rest, len done_ + len (concat chunks)).
Proof.
  induction chunks as [|c chunks IH]; intros done_ rest.
  - simpl. change (len []) with 0. by rewrite Z.add_0_r.
  - cbn [concat foldl]. rewrite length_app, replicate_add, <- app_assoc.
    rewrite typed_set_at_next.
    replace (len done_ + len c) with (len (done_ ++ c)) by (by rewrite len_app).
    rewrite IH, <- !app_assoc, !len_app. f_equal. lia.
Qed.

Lemma mergeChunks_concat (chunks : list (list Q)) : mergeChunks chunks = concat chunks.
Proof.
  unfold mergeChunks. cbv zeta. rewrite totalLength_concat.
  replace (Z.to_nat (len (concat chunks))) with (length (concat chunks))
    by (unfold len; lia).
  pose proof (merge_loop chunks [] []) as Hloop.
  rewrite !app_nil_r in Hloop. cbn [app] in Hloop.
  change (len []) with 0 in Hloop. rewrite Hloop. done.
Qed.

(** [stopRecording] hands back the WAV file of the chunks joined in the
    order they arrived: 44 bytes and two per sample.  The sample rate it
    writes is the rate of the audio context; it is 16000 when there is no
    context, or when the context reports the rate 0. *)
Theorem stopRecording_wav (s : State) :
  let rate :=
    match audioContext s with
    | Some contextRate => if contextRate =? 0 then 16000 else contextRate
    | None => 16000
    end in
  let wav := fst (stopRecording s) in
  mergeChunks (audioData s) = concat (audioData s) /\
  wav = float32ToWav (concat (audioData s)) rate /\
  wav = wav_header (len (concat (audioData s))) rate
          ++ flat_map pcm16 (concat (audioData s)) /\
  len wav = 44 + 2 * totalLength (audioData s).
Proof.
  cbv zeta. unfold stopRecording. cbv zeta. cbn [fst].
  rewrite mergeChunks_concat, float32ToWav_bytes, totalLength_concat.
  change (actualSampleRate s) with
    (match audioContext s with
     | Some contextRate => if contextRate =? 0 then 16000 else contextRate
     | None => 16000
     end).
  repeat split.
  - symmetry. apply float32ToWav_bytes.
  - rewrite len_app, len_flat_map_pcm16. change (len (wav_header _ _)) with 44. lia.
Qed.

(** A recording of three samples in two chunks, in a context that runs at
    44100 Hz. *)
Lemma stopRecording_wav_example :
  fst (stopRecording
         {| audioContext := Some 44100; mediaStream := true; scriptProcessor := true;
            audioData := [[1; 0]; [-1]]%Q; isRecording := true;
            live_streams := 1; open_contexts := 1 |})
  = float32ToWav [1; 0; -1]%Q 44100.
Proof.
  exact (proj1 (proj2 (stopRecording_wav
    {| audioContext := Some 44100; mediaStream := true; scriptProcessor := true;
       audioData := [[1; 0]; [-1]]%Q; isRecording := true;
       live_streams := 1; open_contexts := 1 |}))).
Defined.

(** After [stopRecording] every variable of the module is back to its
    initial value and the resources the module held are released; chunks
    that arrive later are dropped, and a second [stopRecording] gives the
    44-byte file with no sample, at 16000 Hz, and changes nothing. *)
Theorem stopRecording_releases (s : State) :
  let s1 := snd (stopRecording s) in
  audioContext s1 = None /\ mediaStream s1 = false /\ scriptProcessor s1 = false /\
  audioData s1 = [] /\ isRecording s1 = false /\
  (mediaStream s = true -> live_streams s1 = pred (live_streams s)) /\
  (is_Some (audioContext s) -> open_contexts s1 = pred (open_contexts s)) /\
  (forall chunk, onaudioprocess chunk s1 = s1) /\
  stopRecording s1 = (float32ToWav [] SAMPLE_RATE, s1) /\
  len (float32ToWav [] SAMPLE_RATE) = 44.
Proof.
  cbv zeta. unfold stopRecording. cbv zeta. cbn [fst snd].
  repeat split; try reflexivity.
  - intros Hstream. simpl. by rewrite Hstream.
  - intros [rate Hctx]. simpl. by rewrite Hctx.
Qed.

Lemma stopRecording_releases_example :
  live_streams
    (snd (stopRecording
            {| audioContext := Some 16000; mediaStream := true; scriptProcessor := true;
               audioData := [[1; 0]%Q]; isRecording := true;
               live_streams := 1; open_contexts := 1 |})) = 0%nat.
Proof.
  refine (proj1 (proj2 (proj2 (proj2 (proj2 (proj2 (stopRecording_releases
    {| audioContext := Some 16000; mediaStream := true; scriptProcessor := true;
       audioData := [[1; 0]%Q]; isRecording := true;
       live_streams := 1; open_contexts := 1 |})))))) _).
  reflexivity.
Defined.

Lemma onaudioprocess_chunks (chunks : list (list Q)) (s : State) :
  isRecording s = true ->
  foldl (fun s chunk => onaudioprocess chunk s) s chunks =
    {| audioContext := audioContext s; mediaStream := mediaStream s;
       scriptProcessor := scriptProcessor s; audioData := audioData s ++ chunks;
       isRecording := true; live_streams := live_streams s;
       open_contexts := open_contexts s |}.
Proof.
  revert s. induction chunks as [|c chunks IH]; intros s Hrec.
  - simpl. rewrite app_nil_r. destruct s. simpl in *. by subst.
  - cbn [foldl]. rewrite IH.
    + unfold onaudioprocess. rewrite Hrec. simpl. by rewrite <- app_assoc.
    + unfold onaudioprocess. by rewrite Hrec.
Qed.

(** A recording that the browser allows returns the WAV file of the
    chunks delivered during it, in order, whatever was left in the buffer
    before; afterwards the buffer is empty, the variables are null and the
    stream and the context that the recording opened are released (no more
    streams or contexts are open than before). *)
Theorem startRecording_session (w : World) (s : State) (rate : Z) :
  getUserMedia w = true ->
  newAudioContext w = Some rate ->
  let s' := snd (startRecording w s) in
  fst (startRecording w s) =
    Returns (float32ToWav (concat (delivered w)) (if rate =? 0 then 16000 else rate)) /\
  s' = {| audioContext := None; mediaStream := false; scriptProcessor := false;
          audioData := []; isRecording := false;
          live_streams := live_streams s; open_contexts := open_contexts s |}.
Proof.
  intros Hmedia Hctx. cbv zeta. unfold startRecording. rewrite Hmedia, Hctx.
  rewrite onaudioprocess_chunks by reflexivity. cbn [audioData app].
  unfold stopRecording. cbv zeta. cbn [fst snd audioData audioContext mediaStream].
  rewrite mergeChunks_concat. split; reflexivity.
Qed.

Lemma startRecording_session_example :
  fst (startRecording
         {| getUserMedia := true; newAudioContext := Some 16000;
            delivered := [[1; 0]; [-1]]%Q |}
         initial)
  = Returns (float32ToWav [1; 0; -1]%Q 16000).
Proof.
  exact (proj1 (startRecording_session
    {| getUserMedia := true; newAudioContext := Some 16000;
       delivered := [[1; 0]; [-1]]%Q |} initial 16000 eq_refl eq_refl)).
Defined.

(** When the microphone is refused, [startRecording] raises and changes
    nothing.  When the microphone is granted and the audio context cannot be
    made, it raises the same message and leaves the stream open in
    [mediaStream]: one more stream is live, until [stopRecording] is
    called. *)
Theorem startRecording_failure (w : World) (s : State) :
  (getUserMedia w = false ->
     startRecording w s =
       (Throws "No se pudo acceder al micrófono. Verifica los permisos.", s)) /\
  (getUserMedia w = true -> newAudioContext w = None ->
     let s' := snd (startRecording w s) in
     fst (startRecording w s) =
       Throws "No se pudo acceder al micrófono. Verifica los permisos." /\
     mediaStream s' = true /\ live_streams s' = S (live_streams s) /\
     isRecording s' = isRecording s /\ audioData s' = audioData s /\
     live_streams (snd (stopRecording s')) = live_streams s).
Proof.
  split.
  - intros Hmedia. unfold startRecording. by rewrite Hmedia.
  - intros Hmedia Hctx. cbv zeta. unfold startRecording. rewrite Hmedia, Hctx.
    repeat split.
Qed.

Lemma startRecording_failure_example :
  startRecording {| getUserMedia := false; newAudioContext := None; delivered := [] |} initial
  = (Throws "No se pudo acceder al micrófono. Verifica los permisos.", initial).
Proof.
  refine (proj1 (startRecording_failure
    {| getUserMedia := false; newAudioContext := None; delivered := [] |} initial) _).
  reflexivity.
Defined.

(** [sendAudioToBackend] returns the parsed answer exactly when the
    response is [ok] and its body parses; a network failure, a response that
    is not [ok] (whatever its status) and a body that does not parse all raise
    the one message "Error al enviar audio al servidor".  The request goes to
    [http://localhost:8000/api/analyze] when no URL is configured. *)
Theorem sendAudioToBackend_outcome {J} (env : option string)
    (server : Request -> Fetched J) (audioBlob : list Z) :
  (forall value,
     sendAudioToBackend env server audioBlob = Returns value <->
     exists status, server (request env audioBlob) = Response true status (Returns value)) /\
  (forall message,
     sendAudioToBackend env server audioBlob = Throws message ->
     message = "Error al enviar audio al servidor"%string) /\
  body (request env audioBlob) = audioBlob /\
  (env = None \/ env = Some ""%string ->
     url (request env audioBlob) = "http://localhost:8000/api/analyze"%string).
Proof.
  unfold sendAudioToBackend.
  destruct (server (request env audioBlob)) as [|[|] status [value|message]];
    (split; [|split; [|split]]); try reflexivity.
  all: try (intros value'; split;
            [intros Heq; try discriminate; injection Heq as <-; by eexists
            |intros [status' Heq]; try discriminate; by injection Heq as _ <-]).
  all: try (intros m Heq; try discriminate; by injection Heq as <-).
  all: intros [->| ->]; reflexivity.
Qed.

Lemma sendAudioToBackend_outcome_example :
  url (request None [82; 73; 70; 70]) = "http://localhost:8000/api/analyze"%string.
Proof.
  refine (proj2 (proj2 (proj2 (sendAudioToBackend_outcome (J:=unit) None
    (fun _ => NetworkError) [82; 73; 70; 70]))) _).
  left. reflexivity.
Defined.
End RecorderProperties.

(** ** The model loader: caching, unloading, messages, metadata *)

Module LoaderMore.
Import Loader.

Lemma includes_404_wrapped (message : string) :
  includes "404" ("Error cargando modelo de idioma: " ++ message) = includes "404" message.
Proof. unfold includes. simpl. by destruct (index 0 "404" message). Qed.

(** Once a load has succeeded, a later call does not consult the world:
    it returns the references of the first load and changes nothing.  The
    object it returns has the language model, the accent model and the labels
    only, not the spoofing model and configuration that the first call
    returned. *)
Theorem loadModels_cached (w1 w2 : World) (s : State) (model : LayersModel) :
  modelsLoaded s = false ->
  tf_ready w1 = Returns tt ->
  loadLayersModel w1 (path_language MODEL_PATHS) = Returns model ->
  let s1 := snd (loadModels w1 s) in
  loadModels w2 s1 =
    (Returns {| r_languageModel := Some model; r_accentModel := accentModel s1;
                r_spoofingModel := None; r_languageLabels := languageLabels s1;
                r_spoofingConfig := None |}, s1) /\
  fst (loadModels w1 s) =
    Returns {| r_languageModel := Some model; r_accentModel := accentModel s1;
               r_spoofingModel := spoofingModel s1; r_languageLabels := languageLabels s1;
               r_spoofingConfig := spoofingConfig s1 |}.
Proof.
  intros Hfresh Hready Hlang. cbv zeta.
  remember (loadModels w1 s) as first eqn:Hfirst.
  unfold loadModels in Hfirst. rewrite Hfresh, Hready, Hlang in Hfirst.
  destruct (loadLayersModel w1 (path_accent MODEL_PATHS));
    destruct (loadLayersModel w1 (path_spoofing MODEL_PATHS));
    subst first; cbn [fst snd]; split; reflexivity.
Qed.

Lemma loadModels_cached_example :
  fst (loadModels world_without_models (snd (loadModels world_language_only initial))) =
    Returns {| r_languageModel := Some {| model_path := "/models/language/model.json" |};
               r_accentModel := None; r_spoofingModel := None;
               r_languageLabels := None; r_spoofingConfig := None |}.
Proof.
  pose proof (loadModels_cached world_language_only world_without_models initial
                {| model_path := "/models/language/model.json" |}
                eq_refl eq_refl eq_refl) as [Hcached _].
  cbv zeta in Hcached. rewrite Hcached. reflexivity.
Defined.

Lemma unloadModels_initial (s : State) : unloadModels s = initial.
Proof.
  destruct s as [[language|] [accent|] [spoofing|] loaded labels config]; reflexivity.
Qed.

(** [unloadModels] puts every variable back to its initial value, the
    labels and the spoofing configuration too, whatever was loaded; the next
    [loadModels] loads everything anew. *)
Theorem unloadModels_resets (w : World) (s : State) :
  unloadModels s = initial /\
  getModels (unloadModels s) =
    ({| r_languageModel := None; r_accentModel := None; r_spoofingModel := None;
        r_languageLabels := None; r_spoofingConfig := None |}, false) /\
  loadModels w (unloadModels s) = loadModels w initial /\
  unloadModels (snd (loadModels w s)) = initial.
Proof. rewrite !unloadModels_initial. by repeat split. Qed.

(** What the caller reads when the load fails: the "not found" message
    when the message of the failure contains 404, and otherwise the message
    of the failure behind "Error cargando modelos: " (and, for the language
    model, "Error cargando modelo de idioma: ").  A failure of [tf.ready]
    leaves the state as it was. *)
Theorem loadModels_error_message (w : World) (s : State) :
  modelsLoaded s = false ->
  let not_found :=
    ("No se encontraron los modelos. Asegúrate de haber entrenado y convertido los modelos a TensorFlow.js. "
     ++ "Los archivos deben estar en /public/models/language/")%string in
  (forall message, tf_ready w = Throws message ->
     loadModels w s =
       (Throws (if includes "404" message then not_found
                else ("Error cargando modelos: " ++ message)%string), s)) /\
  (forall message, tf_ready w = Returns tt ->
     loadLayersModel w (path_language MODEL_PATHS) = Throws message ->
     fst (loadModels w s) =
       Throws (if includes "404" message then not_found
               else ("Error cargando modelos: Error cargando modelo de idioma: "
                     ++ message)%string)).
Proof.
  intros Hfresh. cbv zeta. split.
  - intros message Hready. unfold loadModels. rewrite Hfresh, Hready. reflexivity.
  - intros message Hready Hlang. unfold loadModels. rewrite Hfresh, Hready, Hlang.
    cbn [fst]. unfold rethrow. rewrite includes_404_wrapped.
    destruct (includes "404" message); reflexivity.
Qed.

Lemma loadModels_error_message_example :
  fst (loadModels
         {| tf_ready := Returns tt; fetch_labels := FetchNotOk;
            fetch_spoofingConfig := FetchNotOk;
            loadLayersModel := fun _ => Throws "Failed to fetch" |} initial)
  = Throws "Error cargando modelos: Error cargando modelo de idioma: Failed to fetch".
Proof.
  exact (proj2 (loadModels_error_message
    {| tf_ready := Returns tt; fetch_labels := FetchNotOk;
       fetch_spoofingConfig := FetchNotOk;
       loadLayersModel := fun _ => Throws "Failed to fetch" |} initial eq_refl)
    "Failed to fetch"%string eq_refl eq_refl).
Defined.

Lemma loadModels_metadata (w : World) (s : State) :
  modelsLoaded s = false ->
  tf_ready w = Returns tt ->
  languageLabels (snd (loadModels w s)) = languageLabels (loadLabels w s) /\
  spoofingConfig (snd (loadModels w s)) = spoofingConfig (loadSpoofingConfig w s).
Proof.
  intros Hfresh Hready. unfold loadModels. rewrite Hfresh, Hready.
  destruct (loadLayersModel w (path_language MODEL_PATHS));
    [destruct (loadLayersModel w (path_accent MODEL_PATHS));
     destruct (loadLayersModel w (path_spoofing MODEL_PATHS))|];
    cbn [snd]; unfold loadSpoofingConfig, loadLabels;
    destruct (fetch_labels w), (fetch_spoofingConfig w); split; reflexivity.
Qed.

(** The labels and the spoofing configuration after a load, failed or
    not: what was fetched; the defaults when the fetch or the parsing raised;
    and, when the response was not [ok] (a 404, say), what the variable held
    before, which is null on a fresh module: no default is used then. *)
Theorem metadata_defaults (w : World) (s : State) :
  modelsLoaded s = false ->
  tf_ready w = Returns tt ->
  let s' := snd (loadModels w s) in
  languageLabels s' =
    match fetch_labels w with
    | FetchOk json => Some json
    | FetchNotOk => languageLabels s
    | FetchThrows => Some ["Español"; "Inglés"; "Francés"; "Alemán"]%string
    end /\
  spoofingConfig s' =
    match fetch_spoofingConfig w with
    | FetchOk json => Some json
    | FetchNotOk => spoofingConfig s
    | FetchThrows => Some {| threshold := 1 # 2; labels := ["human"; "spoof"]%string |}
    end.
Proof.
  intros Hfresh Hready. cbv zeta.
  destruct (loadModels_metadata w s Hfresh Hready) as [-> ->].
  unfold loadLabels, loadSpoofingConfig.
  by destruct (fetch_labels w), (fetch_spoofingConfig w).
Qed.

Lemma metadata_defaults_example :
  languageLabels (snd (loadModels world_language_only initial)) = None.
Proof.
  exact (proj1 (metadata_defaults world_language_only initial eq_refl eq_refl)).
Defined.
End LoaderMore.

(** ** The two versions of the loader *)

Module LoaderVersions.
Import Loader Loader0.

(** The earlier loader and the later one agree on what they share: run
    on the same world from matching states, they raise the same message or
    return the same language model, accent model and labels, and leave
    matching states.  Adding spoofing detection left the rest as it was. *)
Theorem loaders_agree (w : World) (s : State) :
  snd (loadModels0 (earlier_world w) (earlier_state s)) = earlier_state (snd (loadModels w s)) /\
  match fst (loadModels w s), fst (loadModels0 (earlier_world w) (earlier_state s)) with
  | Throws message, Throws message0 => message = message0
  | Returns models, Returns models0 =>
      r_languageModel0 models0 = r_languageModel models /\
      r_accentModel0 models0 = r_accentModel models /\
      r_languageLabels0 models0 = r_languageLabels models
  | _, _ => False
  end.
Proof.
  unfold loadModels, loadModels0.
  destruct s as [language accent spoofing loaded labels config].
  destruct w as [ready fetched_labels fetched_config load]. simpl.
  destruct loaded; [by repeat split|].
  destruct ready as [[]|message]; [|by split].
  unfold loadLabels, loadLabels0, loadSpoofingConfig. simpl.
  destruct fetched_labels, fetched_config, (load "/models/language/model.json"%string);
    simpl; try (by split);
    destruct (load "/models/accent/model.json"%string),
             (load "/models/spoofing/model.json"%string);
    by repeat split.
Qed.
End LoaderVersions.

(** ** The columns of the waveform *)

Section Waveform.
Context {F : Type}.
Implicit Types (data : list F) (width i : Z).

Lemma slice_nonneg {A} (b e : Z) (a : list A) :
  0 <= b <= e -> slice b e a = drop (Z.to_nat b) (take (Z.to_nat e) a).
Proof.
  intros Hbe. unfold slice, slice_index. cbv zeta.
  destruct (Z.ltb_spec b 0), (Z.ltb_spec e 0); try lia.
  pose proof (len_nonneg a) as Hlen. unfold len in *.
  destruct (Z.le_gt_cases e (Z.of_nat (length a))) as [He|He].
  - rewrite !Z.min_l by lia. rewrite take_drop_commute. do 2 f_equal. lia.
  - rewrite (Z.min_r e) by lia. rewrite (take_ge a (Z.to_nat e)) by lia.
    destruct (Z.le_gt_cases b (Z.of_nat (length a))) as [Hb|Hb].
    + rewrite Z.min_l by lia. apply take_ge. rewrite length_drop. lia.
    + rewrite Z.min_r by lia. rewrite Z.sub_diag. simpl.
      symmetry. apply drop_ge. lia.
Qed.

Lemma waveform_step_bounds (n width : Z) :
  0 <= n -> 0 < width ->
  0 <= waveform_step n width /\ n <= width * waveform_step n width /\
  (n <= width -> waveform_step n width <= 1).
Proof.
  intros Hn Hw. unfold waveform_step.
  pose proof (Z.mul_div_le (n + width - 1) width Hw).
  pose proof (Z.mul_succ_div_gt (n + width - 1) width Hw).
  pose proof (Z.div_pos (n + width - 1) width ltac:(lia) Hw).
  repeat split; try lia. intros Hle.
  assert ((n + width - 1) / width < 2); [|lia].
  apply Z.div_lt_upper_bound; lia.
Qed.

Lemma waveform_columns_prefix data width (k : nat) :
  0 < width ->
  concat (waveform_column data width <$> seqZ 0 (Z.of_nat k)) =
    take (Z.to_nat (Z.of_nat k * waveform_step (len data) width)) data.
Proof.
  intros Hw.
  destruct (waveform_step_bounds (len data) width (len_nonneg data) Hw) as (Hstep & _).
  induction k as [|k IH].
  - rewrite seqZ_nil by lia. done.
  - rewrite seqZ_S, fmap_app, concat_app, IH. simpl. rewrite app_nil_r, Z.add_0_l.
    unfold waveform_column. cbv zeta. rewrite slice_nonneg by nia.
    set (step := waveform_step (len data) width) in *.
    replace ((Z.of_nat k + 1) * step) with (Z.of_nat (S k) * step) by lia.
    rewrite <- (take_drop (Z.to_nat (Z.of_nat k * step))
                  (take (Z.to_nat (Z.of_nat (S k) * step)) data)) at 2.
    f_equal. rewrite take_take. f_equal. nia.
Qed.

(** The columns that [drawWaveform] takes its minima and maxima from are
    consecutive runs of the samples: joined in order they are the whole
    signal, each sample in exactly one column.  No column has more than
    [step] samples, and when there are no more samples than columns, the
    columns past the last sample are empty. *)
Theorem waveform_columns_cover data width :
  0 < width ->
  let step := waveform_step (len data) width in
  let columns := waveform_column data width <$> seqZ 0 width in
  concat columns = data /\
  len columns = width /\
  Forall (fun column => len column <= step) columns /\
  (len data <= width ->
     forall i, len data <= i -> waveform_column data width i = []).
Proof.
  intros Hw. cbv zeta.
  destruct (waveform_step_bounds (len data) width (len_nonneg data) Hw)
    as (Hstep & Hcover & Hsmall).
  split; [|split; [|split]].
  - rewrite <- (Z2Nat.id width) at 2 by lia. rewrite waveform_columns_prefix by done.
    apply take_ge. rewrite Z2Nat.id by lia. unfold len in *. lia.
  - unfold len. rewrite length_fmap, length_seqZ. lia.
  - apply Forall_fmap, Forall_seqZ. intros i Hi. simpl.
    unfold waveform_column. cbv zeta. rewrite slice_nonneg by nia.
    set (step := waveform_step (len data) width) in *.
    assert (0 <= i * step) by nia.
    assert ((i + 1) * step = i * step + step) by lia.
    unfold len. rewrite length_drop, length_take. lia.
  - intros Hle i Hi. specialize (Hsmall Hle).
    unfold waveform_column. cbv zeta. pose proof (len_nonneg data).
    rewrite slice_nonneg by nia. apply drop_ge. rewrite length_take.
    set (step := waveform_step (len data) width) in *.
    assert (Hcases : step = 0 \/ step = 1) by lia.
    unfold len in *. destruct Hcases as [Hs|Hs]; rewrite Hs in *; lia.
Qed.

(** The calls of [drawWaveform]: five to set up, a [moveTo] and a
    [lineTo] per column, and [stroke]. *)
Lemma drawWaveform_calls `{Number F} `{MinMax F} data width height :
  0 <= width -> len (drawWaveform data width height) = 6 + 2 * width.
Proof.
  intros Hw. unfold drawWaveform. cbv zeta. rewrite !len_app.
  assert (Hloop : forall body : Z -> list (Command F),
    (forall i, len (body i) = 2) ->
    len (for_range 0 width (fun calls i => calls ++ body i) []) = 2 * width).
  { intros body Hbody.
    apply (for_range_invariant (fun i calls => len calls = 2 * i)); [done|done|].
    intros i calls Hi Hcalls. rewrite len_app, Hbody. lia. }
  rewrite (Hloop (fun i => [MoveTo i _; LineTo i _])) by done.
  change (len [_; _; _; _; _]) with 5. change (len [Stroke]) with 1. lia.
Qed.
End Waveform.

Lemma waveform_columns_cover_example :
  concat (waveform_column [1; 2; 3; 4; 5]%Q 2 <$> seqZ 0 2) = [1; 2; 3; 4; 5]%Q.
Proof.
  refine (proj1 (waveform_columns_cover [1; 2; 3; 4; 5]%Q 2 _)). reflexivity.
Defined.

(** ** Overlap of the frames *)

Section FrameOverlap.
Context {F : Type} `{Number F}.

(** Consecutive frames overlap by [fftSize - hopLength = 1536] samples:
    the last 1536 samples of a frame are the first 1536 of the next. *)
Theorem frames_overlap (audioData : list F) (i : Z) :
  0 <= i -> i + 1 < numFrames audioData ->
  drop (Z.to_nat (hopLength CONFIG)) (frame_at audioData i) =
  take (Z.to_nat (fftSize CONFIG - hopLength CONFIG)) (frame_at audioData (i + 1)).
Proof.
  intros Hi Hnext. rewrite !frame_at_inside by lia.
  change (hopLength CONFIG) with 512. change (fftSize CONFIG) with 2048.
  replace (Z.to_nat 2048) with (Z.to_nat 512 + Z.to_nat (2048 - 512))%nat at 1 by lia.
  rewrite <- take_drop_commute, drop_drop, take_take.
  replace (Z.to_nat (2048 - 512) `min` Z.to_nat 2048)%nat with (Z.to_nat (2048 - 512)) by lia.
  do 2 f_equal. lia.
Qed.
End FrameOverlap.

Lemma frames_overlap_example :
  drop (Z.to_nat (hopLength CONFIG)) (frame_at (audioBufferToFloat32 remainder_input) 0) =
  take (Z.to_nat (fftSize CONFIG - hopLength CONFIG))
    (frame_at (audioBufferToFloat32 remainder_input) (0 + 1)).
Proof.
  apply (frames_overlap (F:=Q)); [lia|].
  unfold numFrames. rewrite len_audioBufferToFloat32. reflexivity.
Defined.
